(** * Assumption-free anomaly detection (hr_monitor/assumption_free.py)

    A shallow embedding of [AssumptionFreeAA] and the properties of its
    sliding windows, SAX words, frequency tables, bitmaps and score.

    Numbers.  Finite float values are modelled by exact rationals [Q];
    the IEEE special values that numpy produces instead of raising
    (division by a zero standard deviation, the mean of an empty slice)
    are kept as explicit constructors of [float].  Rounding is not
    modelled.  The two transcendental library functions used by the
    source, the square root inside [ndarray.std] and the inverse normal
    CDF [scipy.stats.norm.ppf], are parameters of the development. *)

From Stdlib Require Import ZArith QArith Lia Lqa List String Ascii.
From stdpp Require Import gmap strings list fin_maps sorting.

Local Open Scope Z_scope.

(** ** Exceptions and results *)

Inductive exn : Type :=
  | ZeroDivisionError   (* integer/float division by a Python zero *)
  | IndexError          (* index out of range, pop from an empty deque *)
  | ValueError          (* bad argument to a library function *)
  | PlainException.     (* the bare [raise Exception()] of [_get_words] *)

Inductive result (A : Type) : Type :=
  | Ok (a : A)
  | Raise (e : exn).
Arguments Ok {A} a.
Arguments Raise {A} e.

Definition bind {A B} (r : result A) (k : A -> result B) : result B :=
  match r with
  | Ok a => k a
  | Raise e => Raise e
  end.

Notation "'let!' x ':=' r 'in' k" := (bind r (fun x => k))
  (at level 10, x name, r at level 100, k at level 200).

Fixpoint mapM {A B} (f : A -> result B) (l : list A) : result (list B) :=
  match l with
  | [] => Ok []
  | a :: l' => let! b := f a in let! bs := mapM f l' in Ok (b :: bs)
  end.

(** ** Floating point values *)

Inductive float : Type :=
  | Fin (q : Q)
  | PInf
  | NInf
  | NaN.

Definition Qsgn (q : Q) : Z := Z.sgn (Qnum q).

Definition fadd (x y : float) : float :=
  match x, y with
  | NaN, _ | _, NaN => NaN
  | Fin a, Fin b => Fin (a + b)
  | PInf, NInf | NInf, PInf => NaN
  | PInf, _ | _, PInf => PInf
  | NInf, _ | _, NInf => NInf
  end.

Definition fopp (x : float) : float :=
  match x with
  | Fin a => Fin (- a)
  | PInf => NInf
  | NInf => PInf
  | NaN => NaN
  end.

Definition fsub (x y : float) : float := fadd x (fopp y).

Definition inf_of_sign (s : Z) : float :=
  if s =? 0 then NaN else if 0 <? s then PInf else NInf.

Definition fsgn (x : float) : Z :=
  match x with
  | Fin a => Qsgn a
  | PInf => 1
  | NInf => -1
  | NaN => 0
  end.

Definition fmul (x y : float) : float :=
  match x, y with
  | NaN, _ | _, NaN => NaN
  | Fin a, Fin b => Fin (a * b)
  | _, _ => inf_of_sign (fsgn x * fsgn y)
  end.

(** numpy scalar division: a zero divisor gives an infinity or NaN
    (with a RuntimeWarning), never an exception. *)
Definition fdiv (x y : float) : float :=
  match x, y with
  | NaN, _ | _, NaN => NaN
  | Fin a, Fin b =>
      if Qeq_bool b 0 then inf_of_sign (Qsgn a) else Fin (a / b)
  | Fin _, _ => Fin 0
  | _, Fin b => inf_of_sign (fsgn x * (if Qeq_bool b 0 then 1 else Qsgn b))
  | _, _ => NaN
  end.

(** [x > y]; every comparison with NaN is false. *)
Definition fgtb (x y : float) : bool :=
  match x, y with
  | NaN, _ | _, NaN => false
  | Fin a, Fin b => negb (Qle_bool a b)
  | PInf, PInf => false
  | PInf, _ => true
  | Fin _, NInf => true
  | _, _ => false
  end.


(** ** numpy and Python library functions *)

Definition fsum (l : list float) : float := fold_left fadd l (Fin 0).

(** [np.mean]: the mean of an empty array is NaN (with a warning). *)
Definition np_mean (l : list float) : float :=
  match l with
  | [] => NaN
  | _ => fdiv (fsum l) (Fin (inject_Z (Z.of_nat (length l))))
  end.

(** [np.array_split(ary, sections)] for an integer [sections]: the
    array is cut at the cumulative sums of [section_sizes], in which the
    first [len mod sections] pieces have one more element than the
    others. *)
Definition section_sizes (ntotal nsections : nat) : list nat :=
  let neach := (ntotal / nsections)%nat in
  let extras := (ntotal mod nsections)%nat in
  replicate extras (S neach) ++ replicate (nsections - extras) neach.

Definition array_split {A} (ary : list A) (sections : Z) : result (list (list A)) :=
  if sections <=? 0 then Raise ValueError
  else Ok (reshape (section_sizes (length ary) (Z.to_nat sections)) ary).

(** [np.linspace(start, stop, num)]: [num] evenly spaced points from
    [start] to [stop], both included; a negative [num] is rejected. *)
Definition linspace (start stop : Q) (num : Z) : result (list Q) :=
  if num <? 0 then Raise ValueError
  else if num =? 1 then Ok [start]
  else
    let step := ((stop - start) / inject_Z (num - 1))%Q in
    Ok (map (fun i : nat => (start + inject_Z (Z.of_nat i) * step)%Q)
            (seq 0 (Z.to_nat num))).

(** [string.ascii_letters] *)
Definition ascii_letters : string :=
  "abcdefghijklmnopqrstuvwxyzABCDEFGHIJKLMNOPQRSTUVWXYZ".

(** [np.where(cond)[0][0]]: the first index at which [cond] holds. *)
Fixpoint first_index {A} (p : A -> bool) (l : list A) : result nat :=
  match l with
  | [] => Raise IndexError
  | a :: l' => if p a then Ok 0%nat else let! i := first_index p l' in Ok (S i)
  end.

Definition getitem_string (s : string) (i : nat) : result ascii :=
  match String.get i s with
  | Some c => Ok c
  | None => Raise IndexError
  end.

(** A bitmap is a two-dimensional array, a list of rows. *)
Abbreviation bitmap := (list (list Q)).

Module AssumptionFreeAA.

Section Numeric.

(** The square root used by [ndarray.std] on non-negative finite values
    and the quantile function [norm.ppf] on (0,1). *)
Variable sqrt_fn : Q -> Q.
Variable ppf : Q -> Q.

Definition fsqrt (x : float) : float :=
  match x with
  | Fin a => if Qle_bool 0 a then Fin (sqrt_fn a) else NaN
  | PInf => PInf
  | _ => NaN
  end.

(** [ndarray.std()]: sqrt(mean(|x - mean(x)|^2)). *)
Definition np_std (l : list float) : float :=
  let m := np_mean l in
  fsqrt (np_mean (map (fun x => fmul (fsub x m) (fsub x m)) l)).

(** [norm.ppf] on an array of probabilities. *)
Definition norm_ppf (p : Q) : float :=
  if Qle_bool p 0 then (if Qeq_bool p 0 then NInf else NaN)
  else if Qle_bool 1 p then (if Qeq_bool p 1 then PInf else NaN)
  else Fin (ppf p).

(** *** [_sax] (lines 48-94) *)

Definition sax_breakpoints (alphbt_size : Z) : result (list float) :=
  if alphbt_size =? 0 then Raise ZeroDivisionError
  else
    let a := inject_Z alphbt_size in
    let! pts := linspace (1 / a)%Q (1 - 1 / a)%Q (alphbt_size - 1) in
    Ok (map norm_ppf pts ++ [PInf]).

(** Lines 64-65: centre the data, then scale it by the reciprocal of
    its standard deviation. *)
Definition standardize (data : list float) : list float :=
  let scaled_data := map (fun x => fsub x (np_mean data)) data in
  let factor := fdiv (Fin 1) (np_std scaled_data) in
  map (fun x => fmul x factor) scaled_data.

(** Line 82: [np.where(breakpoints > section_mean)[0][0]]. *)
Definition locate (breakpoints : list float) (section_mean : float) : result nat :=
  first_index (fun b => fgtb b section_mean) breakpoints.

Definition _sax (data : list Q) (alphbt_size : Z) (word_size : Z) : result string :=
  (* Scale data to have a mean of 0 and a standard deviation of 1. *)
  let scaled_data := standardize (map Fin data) in
  (* Calculate our breakpoint locations. *)
  let! breakpoints := sax_breakpoints alphbt_size in
  (* Split the scaled_data into phrase_length pieces. *)
  let! sections := array_split scaled_data word_size in
  (* Calculate the mean for each section. *)
  let section_means := map np_mean sections in
  (* Figure out which break each section is in. *)
  let! section_locations := mapM (locate breakpoints) section_means in
  (* Convert the location into the corresponding letter. *)
  let! letters := mapM (getitem_string ascii_letters) section_locations in
  Ok (string_of_list_ascii letters).

(** *** [_dist] (lines 97-102) *)

Definition sumQ (l : list Q) : Q := fold_right Qplus 0%Q l.

(** [np.power(A-B, 2).sum()] for two arrays of one shape (the only use
    in the source; broadcasting between different shapes is not
    modelled). *)
Definition _dist (A B : bitmap) : Q :=
  sumQ (zip_with (fun ra rb =>
                    sumQ (zip_with (fun a b => ((a - b) * (a - b))%Q) ra rb))
                 A B).

(** *** [_build_combinations] (lines 105-122) *)

(** The characters of a Python string, each as a one-character string. *)
Definition chars (alphabet : string) : list string :=
  map (fun a => String a EmptyString) (list_ascii_of_string alphabet).

(** [set(c+a for a in alphabet for c in combinations)] *)
Definition extend (alphabet : string) (combinations : gset string) : gset string :=
  list_to_set (a ← chars alphabet; c ← elements combinations; [c +:+ a]).

(** The recursion of the source is on [combination_len], which every
    call decreases; [fuel] bounds the number of recursive calls. *)
Fixpoint _build_combinations_rec (fuel : nat) (alphabet : string)
    (combinations : gset string) (combination_len : Z) : gset string :=
  let '(combinations, combination_len) :=
    if (size combinations =? 0)%nat
    then (list_to_set (chars alphabet) : gset string, combination_len - 1)
    else (combinations, combination_len) in
  if combination_len <=? 0 then combinations
  else
    match fuel with
    | O => combinations
    | S fuel' =>
        _build_combinations_rec fuel' alphabet
          (extend alphabet combinations) (combination_len - 1)
    end.

Definition _build_combinations (alphabet : string)
    (combinations : gset string) (combination_len : Z) : gset string :=
  _build_combinations_rec (Z.to_nat combination_len) alphabet
    combinations combination_len.

(** *** [_count_substr] (lines 126-137) *)

Definition _count_substr (stack needle : string) : Z :=
  let n := Z.of_nat (String.length stack) - Z.of_nat (String.length needle) + 1 in
  fold_left
    (fun count i =>
       if String.eqb (substring i (String.length needle) stack) needle
       then count + 1 else count)
    (seq 0 (Z.to_nat n)) 0.

(** *** [_count_frequencies] (lines 140-154) *)

Definition _count_frequencies (words : list string) (alphabet : string)
    (subword_len : Z) : gmap string Q :=
  let combinations := _build_combinations alphabet ∅ subword_len in
  let freqs : gmap string Q := gset_to_gmap 0%Q combinations in
  fold_left
    (fun (freqs : gmap string Q) word =>
       map_imap (fun key v => Some (v + inject_Z (_count_substr word key))%Q) freqs)
    words freqs.

(** *** [_build_bitmap] (lines 157-182) *)

(** Python [sorted] on strings: lexicographic by character code, which
    is the order [String.le]. *)
Definition sorted_keys (freqs : gmap string Q) : list string :=
  merge_sort String.le (elements (dom freqs)).

(** Python [max] of a sequence; [ValueError] on an empty one. *)
Definition py_max (l : list Q) : result Q :=
  match l with
  | [] => Raise ValueError
  | x :: l' => Ok (fold_left (fun m v => if Qlt_le_dec m v then v else m) l' x)
  end.

Definition np_zeros (rows cols : nat) : bitmap := replicate rows (replicate cols 0%Q).

(** [bitmap[i, j] = v] with numpy's bounds check. *)
Definition setitem (b : bitmap) (i j : nat) (v : Q) : result bitmap :=
  match b !! i with
  | None => Raise IndexError
  | Some row =>
      if decide (j < length row)%nat
      then Ok (<[i := <[j := v]> row]> b)
      else Raise IndexError
  end.

(** The float [matrix_size = sqrt(len(freqs))] is represented by its
    integer part [side] and by whether it is integral ([exact]); numpy
    truncates it when it is used as a shape.  While [0 <= j < matrix_size],
    [j % matrix_size] is [j], and [j == matrix_size] needs [exact]. *)
Record build_state := {
  bs_freqs : gmap string Q;
  bs_bitmap : bitmap;
  bs_i : nat;
  bs_j : nat
}.

(** The body of the loop, lines 171-180.  The keys are those of the
    table, so [freqs[key]] is always defined. *)
Definition build_step (side : nat) (exact : bool) (max_value : Q)
    (st : build_state) (key : string) : result build_state :=
  let v := default 0%Q (bs_freqs st !! key) in
  let v := if Qeq_bool max_value 0 then 0%Q else (v / max_value)%Q in
  let freqs := <[key := v]> (bs_freqs st) in
  let j := if exact then (bs_j st mod side)%nat else bs_j st in
  let! b := setitem (bs_bitmap st) (bs_i st) j v in
  let j := S j in
  let i := if exact && (j =? side)%nat then S (bs_i st) else bs_i st in
  Ok {| bs_freqs := freqs; bs_bitmap := b; bs_i := i; bs_j := j |}.

Fixpoint build_loop (side : nat) (exact : bool) (max_value : Q)
    (st : build_state) (keys : list string) : result build_state :=
  match keys with
  | [] => Ok st
  | key :: keys' =>
      let! st' := build_step side exact max_value st key in
      build_loop side exact max_value st' keys'
  end.

(** Returns the (mutated) table together with the bitmap. *)
Definition _build_bitmap (freqs : gmap string Q) : result (gmap string Q * bitmap) :=
  let n := size freqs in
  let side := Nat.sqrt n in
  let exact := (side * side =? n)%nat in
  let bitmap := np_zeros side side in
  let ordered_keys := sorted_keys freqs in
  let! max_value := py_max (snd <$> map_to_list freqs) in
  let! st := build_loop side exact max_value
               {| bs_freqs := freqs; bs_bitmap := bitmap; bs_i := 0; bs_j := 0 |}
               ordered_keys in
  Ok (bs_freqs st, bs_bitmap st).

(** *** [_get_words] (lines 185-201) *)

(** [len(window) % feature_size] raises for a zero [feature_size];
    [_sax] is called with its default [alphbt_size=4]. *)
Definition _get_words (window : list Q) (feature_size word_size : Z)
    : result (list string) :=
  if feature_size =? 0 then Raise ZeroDivisionError
  else if negb (Z.of_nat (length window) mod feature_size =? 0)
  then Raise PlainException
  else
    let factor := Z.quot (Z.of_nat (length window)) feature_size in
    mapM (fun i : nat =>
            let window_slice :=
              take (Z.to_nat feature_size) (drop (i * Z.to_nat feature_size) window) in
            _sax window_slice 4 word_size)
         (seq 0 (Z.to_nat factor)).

(** *** Bounded deques ([collections.deque(maxlen=n)]) *)

Record deque := { items : list Q; maxlen : Z }.

Definition len (d : deque) : Z := Z.of_nat (length (items d)).

Definition deque_new (maxlen : Z) : result deque :=
  if maxlen <? 0 then Raise ValueError
  else Ok {| items := []; maxlen := maxlen |}.

(** [append] on a full deque discards the leftmost element. *)
Definition append (d : deque) (x : Q) : deque :=
  if maxlen d =? 0 then d
  else if len d =? maxlen d
  then {| items := drop 1 (items d) ++ [x]; maxlen := maxlen d |}
  else {| items := items d ++ [x]; maxlen := maxlen d |}.

Definition popleft (d : deque) : result (Q * deque) :=
  match items d with
  | [] => Raise IndexError
  | x :: rest => Ok (x, {| items := rest; maxlen := maxlen d |})
  end.

(** *** The detector (lines 20-45) *)

(** Timestamps count from [datetime.min]. *)
Definition datetime := Z.
Definition datetime_min : datetime := 0.

Record Analysis := { score : Q; bitmp1 : bitmap; bitmp2 : bitmap }.

Record detector := {
  _window_factor : Z;
  _window_size : Z;
  _lead_window_factor : Z;
  _lead_window_size : Z;
  _lag_window_factor : Z;
  _lag_window_size : Z;
  universe_size : Z;
  _word_size : Z;
  _recursion_level : Z;
  _lead_window : deque;
  _lag_window : deque;
  last_timestamp : datetime
}.

Definition __init__ (word_size window_factor lead_window_factor
    lag_window_factor recursion_level : Z) : result detector :=
  let window_size := window_factor * word_size in
  let lead_window_size := lead_window_factor * window_size in
  let lag_window_size := lag_window_factor * window_size in
  let! lead_window := deque_new lead_window_size in
  let! lag_window := deque_new lag_window_size in
  Ok {| _window_factor := window_factor;
        _window_size := window_size;
        _lead_window_factor := lead_window_factor;
        _lead_window_size := lead_window_size;
        _lag_window_factor := lag_window_factor;
        _lag_window_size := lag_window_size;
        universe_size := lead_window_size + lag_window_size;
        _word_size := word_size;
        _recursion_level := recursion_level;
        _lead_window := lead_window;
        _lag_window := lag_window;
        last_timestamp := datetime_min |}.

Definition set_windows (d : detector) (lead lag : deque) : detector :=
  {| _window_factor := _window_factor d;
     _window_size := _window_size d;
     _lead_window_factor := _lead_window_factor d;
     _lead_window_size := _lead_window_size d;
     _lag_window_factor := _lag_window_factor d;
     _lag_window_size := _lag_window_size d;
     universe_size := universe_size d;
     _word_size := _word_size d;
     _recursion_level := _recursion_level d;
     _lead_window := lead;
     _lag_window := lag;
     last_timestamp := last_timestamp d |}.

Definition set_last_timestamp (d : detector) (t : datetime) : detector :=
  {| _window_factor := _window_factor d;
     _window_size := _window_size d;
     _lead_window_factor := _lead_window_factor d;
     _lead_window_size := _lead_window_size d;
     _lag_window_factor := _lag_window_factor d;
     _lag_window_size := _lag_window_size d;
     universe_size := universe_size d;
     _word_size := _word_size d;
     _recursion_level := _recursion_level d;
     _lead_window := _lead_window d;
     _lag_window := _lag_window d;
     last_timestamp := t |}.

(** *** [detect] (lines 205-239) *)

(** Lines 213-215: the window update for one datapoint. *)
Definition ingest (d : detector) (datapoint : Q) : result detector :=
  let! d :=
    if len (_lead_window d) =? _lead_window_size d
    then
      let! p := popleft (_lead_window d) in
      Ok (set_windows d (snd p) (append (_lag_window d) (fst p)))
    else Ok d in
  Ok (set_windows d (append (_lead_window d) datapoint) (_lag_window d)).

Definition windows_full (d : detector) : bool :=
  (len (_lead_window d) =? _lead_window_size d)
  && (len (_lag_window d) =? _lag_window_size d).

(** Lines 219-237: one detection cycle on full windows. *)
Definition analyse (d : detector) : result Analysis :=
  let! lead_words :=
    _get_words (items (_lead_window d)) (_window_size d) (_word_size d) in
  let! lag_words :=
    _get_words (items (_lag_window d)) (_window_size d) (_word_size d) in
  let lead_freqs := _count_frequencies lead_words "abcd" (_recursion_level d) in
  let lag_freqs := _count_frequencies lag_words "abcd" (_recursion_level d) in
  let! lead := _build_bitmap lead_freqs in
  let! lag := _build_bitmap lag_freqs in
  let lead_bitmap := snd lead in
  let lag_bitmap := snd lag in
  Ok {| score := _dist lead_bitmap lag_bitmap;
        bitmp1 := lead_bitmap;
        bitmp2 := lag_bitmap |}.

(** The loop of [detect].  An exception leaves the detector as it was
    when it was raised: nothing is rolled back. *)
Fixpoint detect_loop (d : detector) (analysis_result : list Analysis)
    (datapoints : list Q) : detector * result (list Analysis) :=
  match datapoints with
  | [] => (d, Ok analysis_result)
  | datapoint :: rest =>
      match ingest d datapoint with
      | Raise e => (d, Raise e)
      | Ok d' =>
          if windows_full d'
          then match analyse d' with
               | Raise e => (d', Raise e)
               | Ok a => detect_loop d' (analysis_result ++ [a]) rest
               end
          else detect_loop d' analysis_result rest
      end
  end.

Definition detect (d : detector) (datapoints : list Q) (timestamp : datetime)
    : detector * result (list Analysis) :=
  let d := set_last_timestamp d timestamp in
  detect_loop d [] datapoints.

End Numeric.

(** ** Specification-level notions *)

(** *** Bitmaps and the score *)

Definition same_shape (A B : bitmap) : Prop :=
  Forall2 (fun ra rb : list Q => length ra = length rb) A B.

Definition identical (A B : bitmap) : Prop :=
  Forall2 (Forall2 Qeq) A B.


Definition sum_upto (n : nat) (f : nat -> Q) : Q := sumQ (map f (seq 0 n)).


Definition sq_diff (a b : Q) : Q := ((a - b) * (a - b))%Q.
Definition row_dist (ra rb : list Q) : Q := sumQ (zip_with sq_diff ra rb).


(** *** Windows over a stream *)

(** The last [n] elements of a list, and the list without them. *)
Definition lastn {A} (n : Z) (l : list A) : list A :=
  drop (length l - Z.to_nat n) l.

Definition droplast {A} (n : Z) (l : list A) : list A :=
  take (length l - Z.to_nat n) l.

(** Lines 213-215 applied to each datapoint in turn. *)
Fixpoint ingest_all (d : detector) (datapoints : list Q) : result detector :=
  match datapoints with
  | [] => Ok d
  | x :: rest => let! d' := ingest d x in ingest_all d' rest
  end.

(** The windows of [d] are those of a detector with capacities [llead]
    and [llag] that has been fed [hist] since it was created. *)
Record windows_of (llead llag : Z) (hist : list Q) (d : detector) : Prop := {
  wo_lead_size : _lead_window_size d = llead;
  wo_lag_size : _lag_window_size d = llag;
  wo_lead_maxlen : maxlen (_lead_window d) = llead;
  wo_lag_maxlen : maxlen (_lag_window d) = llag;
  wo_lead_nonneg : 0 <= llead;
  wo_lag_nonneg : 0 <= llag;
  wo_lead : items (_lead_window d) = lastn llead hist;
  wo_lag : items (_lag_window d) = lastn llag (droplast llead hist)
}.

(** *** Reference instances

    A rational square root (rounded up at six decimals) and the
    quartiles of the standard normal distribution, the only quantiles
    [detect] asks for (it always encodes with four symbols). *)

Definition sqrt_approx (q : Q) : Q :=
  let q := Qred q in
  Z.sqrt_up (Qnum q * Zpos (Qden q) * 10 ^ 12) # (Qden q * 1000000).

Definition ppf_table (p : Q) : Q :=
  if Qeq_bool p (1 # 4) then (-6745 # 10000)
  else if Qeq_bool p (3 # 4) then (6745 # 10000)
  else 0.

(** [AssumptionFreeAA(word_size=2, window_factor=2, lead_window_factor=1,
    lag_window_factor=1, recursion_level=2)] *)
Definition example_detector : detector :=
  {| _window_factor := 2; _window_size := 4;
     _lead_window_factor := 1; _lead_window_size := 4;
     _lag_window_factor := 1; _lag_window_size := 4;
     universe_size := 8; _word_size := 2; _recursion_level := 2;
     _lead_window := {| items := []; maxlen := 4 |};
     _lag_window := {| items := []; maxlen := 4 |};
     last_timestamp := datetime_min |}.

(** A detector whose lead capacity has been set to 3 while its slices
    have length 2. *)
Definition misaligned_detector : detector :=
  {| _window_factor := 1; _window_size := 2;
     _lead_window_factor := 1; _lead_window_size := 3;
     _lag_window_factor := 0; _lag_window_size := 0;
     universe_size := 3; _word_size := 2; _recursion_level := 2;
     _lead_window := {| items := []; maxlen := 3 |};
     _lag_window := {| items := []; maxlen := 0 |};
     last_timestamp := datetime_min |}.

(** *** Exact mean and variance of finite data *)

Definition Qsum (l : list Q) : Q := fold_left Qplus l 0%Q.





(** *** Slices of a window *)

(** [islice(window, i*feature_size, (i+1)*feature_size)] *)
Definition window_slice (window : list Q) (feature_size : Z) (i : nat) : list Q :=
  take (Z.to_nat feature_size) (drop (i * Z.to_nat feature_size) window).

(** *** Subwords *)

(** All characters of [s] are characters of [alphabet]. *)
Definition over (alphabet s : string) : Prop :=
  Forall (fun c => c ∈ list_ascii_of_string alphabet) (list_ascii_of_string s).

(** The number of distinct symbols of an alphabet. *)
Definition alphabet_size (alphabet : string) : nat :=
  size (list_to_set (chars alphabet) : gset string).

(** The number of positions of [stack] at which [needle] starts;
    occurrences may overlap. *)
Fixpoint occurrences (needle stack : string) : nat :=
  ((if String.prefix needle stack then 1 else 0) +
   match stack with
   | EmptyString => 0
   | String _ stack' => occurrences needle stack'
   end)%nat.

(** [combinations] is the set of all words of length [k] over the
    alphabet. *)
Definition all_words (alphabet : string) (k : nat) (combinations : gset string) : Prop :=
  forall s, s ∈ combinations <-> String.length s = k /\ over alphabet s.

(** A set of all words of length [k] with the expected cardinality. *)
Definition combos_of (alphabet : string) (k : nat) (combinations : gset string) : Prop :=
  all_words alphabet k combinations /\
  size combinations = (alphabet_size alphabet ^ k)%nat.

(** The count of [key] accumulated over [words], starting from [v]. *)
Definition count_all (key : string) (words : list string) (v : Q) : Q :=
  fold_left (fun acc word => (acc + inject_Z (_count_substr word key))%Q) words v.

(** *** Normalized tables *)

(** [bitmap[i, j]] when it exists. *)
Definition getitem (b : bitmap) (i j : nat) : option Q :=
  b !! i ≫= (fun row => row !! j).

(** An entry divided by the maximum, or 0 when the maximum is 0. *)
Definition normalize (max_value v : Q) : Q :=
  if Qeq_bool max_value 0 then 0%Q else (v / max_value)%Q.

(** What the loop of [_build_bitmap] has established after the keys
    [done], for the table [freqs0] it started from. *)
Record build_inv (side : nat) (max_value : Q) (freqs0 : gmap string Q)
    (done : list string) (st : build_state) : Prop := {
  bi_i : bs_i st = (length done / side)%nat;
  bi_j_le : (bs_j st <= side)%nat;
  bi_j : (bs_j st mod side = length done mod side)%nat;
  bi_rows : length (bs_bitmap st) = side;
  bi_cols : Forall (fun row => length row = side) (bs_bitmap st);
  bi_cells : forall p key, done !! p = Some key ->
    getitem (bs_bitmap st) (p / side) (p mod side)
    = Some (normalize max_value (default 0%Q (freqs0 !! key)));
  bi_freqs : forall key,
    bs_freqs st !! key =
    if decide (key ∈ done) then normalize max_value <$> freqs0 !! key
    else freqs0 !! key
}.

(** *** The shape of the bitmaps *)



(** *** Streams *)


(** The configuration of [d] is the one given to the constructor. *)
Record configured (w wf lf lgf r : Z) (d : detector) : Prop := {
  cf_window_size : _window_size d = wf * w;
  cf_word_size : _word_size d = w;
  cf_recursion_level : _recursion_level d = r;
  cf_lead_window_size : _lead_window_size d = lf * (wf * w);
  cf_lag_window_size : _lag_window_size d = lgf * (wf * w)
}.


(** *** Normalized bitmaps *)

(** A square bitmap of the given side whose cells are all in [0, 1]. *)
Definition unit_bitmap (side : nat) (b : bitmap) : Prop :=
  length b = side /\
  Forall (fun row => length row = side /\
                     Forall (fun c => 0 <= c /\ c <= 1)%Q row) b.

(** The number of windows of length [k] of a word. *)
Definition windows (k : nat) (word : string) : nat :=
  (String.length word + 1 - k)%nat.

(** * Properties *)

(** ** The dissimilarity score *)

Lemma _dist_rows A B : _dist A B = sumQ (zip_with row_dist A B).
Proof. reflexivity. Qed.

Lemma sq_diff_nonneg a b : (0 <= sq_diff a b)%Q.
Proof.
  unfold sq_diff. destruct (Qlt_le_dec (a - b) 0) as [Hneg|Hpos].
  - assert ((a - b) * (a - b) == (b - a) * (b - a))%Q as -> by ring.
    apply Qmult_le_0_compat; lra.
  - apply Qmult_le_0_compat; assumption.
Qed.

Lemma sq_diff_zero a b : (sq_diff a b == 0)%Q <-> (a == b)%Q.
Proof.
  unfold sq_diff. split; intros H.
  - apply Qmult_integral in H. lra.
  - rewrite H. ring.
Qed.


Lemma sumQ_nonneg l : Forall (fun x => 0 <= x)%Q l -> (0 <= sumQ l)%Q.
Proof. induction 1; simpl; lra. Qed.

Lemma sumQ_zero l :
  Forall (fun x => 0 <= x)%Q l -> (sumQ l == 0)%Q -> Forall (fun x => x == 0)%Q l.
Proof.
  induction 1 as [|x l Hx Hl IH]; simpl; intros Hs; constructor.
  - pose proof (sumQ_nonneg l Hl). lra.
  - apply IH. pose proof (sumQ_nonneg l Hl). lra.
Qed.

Lemma sumQ_all_zero l : Forall (fun x => x == 0)%Q l -> (sumQ l == 0)%Q.
Proof. induction 1; simpl; lra. Qed.

Lemma sumQ_ext l1 l2 : Forall2 Qeq l1 l2 -> (sumQ l1 == sumQ l2)%Q.
Proof. induction 1; simpl; lra. Qed.

Lemma row_dist_nonneg ra rb : (0 <= row_dist ra rb)%Q.
Proof.
  apply sumQ_nonneg. revert rb.
  induction ra as [|a ra IH]; intros [|b rb]; simpl; constructor; auto using sq_diff_nonneg.
Qed.


Lemma row_dist_zero ra rb :
  length ra = length rb -> (row_dist ra rb == 0)%Q <-> Forall2 Qeq ra rb.
Proof.
  unfold row_dist. revert rb.
  induction ra as [|a ra IH]; intros [|b rb] Hlen; simpl in *; try discriminate.
  - split; [constructor | reflexivity].
  - injection Hlen as Hlen. specialize (IH rb Hlen).
    pose proof (sq_diff_nonneg a b). pose proof (row_dist_nonneg ra rb) as Hr.
    unfold row_dist in Hr. split.
    + intros Hs. constructor; [apply sq_diff_zero; lra | apply IH; lra].
    + intros Hf. inversion Hf; subst.
      assert (sq_diff a b == 0)%Q by (apply sq_diff_zero; assumption).
      assert (sumQ (zip_with sq_diff ra rb) == 0)%Q by (apply IH; assumption).
      lra.
Qed.

Lemma _dist_nonneg A B : (0 <= _dist A B)%Q.
Proof.
  rewrite _dist_rows. apply sumQ_nonneg. revert B.
  induction A as [|ra A IH]; intros [|rb B]; simpl; constructor; auto using row_dist_nonneg.
Qed.


Lemma _dist_zero A B : same_shape A B -> (_dist A B == 0)%Q <-> identical A B.
Proof.
  rewrite _dist_rows. induction 1 as [|ra rb A B Hlen Hs IH]; simpl.
  - split; [constructor | reflexivity].
  - pose proof (row_dist_nonneg ra rb). pose proof (_dist_nonneg A B) as HA.
    rewrite _dist_rows in HA. split.
    + intros Hz. constructor; [apply row_dist_zero; [assumption | lra] | apply IH; lra].
    + intros Hi. inversion Hi; subst.
      assert (row_dist ra rb == 0)%Q by (apply row_dist_zero; assumption).
      assert (sumQ (zip_with row_dist A B) == 0)%Q by (apply IH; assumption).
      lra.
Qed.

Lemma identical_refl A : identical A A.
Proof.
  induction A as [|r A IH]; constructor; [|exact IH].
  induction r; constructor; [reflexivity | assumption].
Qed.

Lemma same_shape_refl A : same_shape A A.
Proof. induction A; constructor; auto. Qed.

(* spec-level sum *)
Lemma sum_upto_shift n f : sum_upto (S n) f = (f 0%nat + sum_upto n (fun i => f (S i)))%Q.
Proof.
  unfold sum_upto. simpl. f_equal. rewrite <- seq_shift, map_map. reflexivity.
Qed.

Lemma sum_upto_ext n f g :
  (forall i, (i < n)%nat -> (f i == g i)%Q) -> (sum_upto n f == sum_upto n g)%Q.
Proof.
  revert f g. induction n as [|n IH]; intros f g H; [reflexivity|].
  rewrite !sum_upto_shift. rewrite (H 0%nat) by lia.
  rewrite (IH (fun i => f (S i)) (fun i => g (S i))); [reflexivity|].
  intros i Hi. apply H. lia.
Qed.




(** ** Sliding windows *)

Lemma lastn_length {A} n (l : list A) :
  0 <= n -> Z.of_nat (length (lastn n l)) = Z.min n (Z.of_nat (length l)).
Proof. intros Hn. unfold lastn. rewrite length_drop. lia. Qed.

Lemma lastn_snoc {A} n (l : list A) x :
  0 <= n ->
  lastn n (l ++ [x]) =
    if n =? 0 then []
    else if Z.of_nat (length l) <? n then l ++ [x]
    else drop 1 (lastn n l) ++ [x].
Proof.
  intros Hn. unfold lastn. rewrite length_app. simpl.
  destruct (Z.eqb_spec n 0) as [->|Hn0].
  - simpl. rewrite Nat.sub_0_r. rewrite drop_ge; [reflexivity|].
    rewrite length_app. simpl. lia.
  - destruct (Z.ltb_spec (Z.of_nat (length l)) n) as [Hlt|Hge].
    + replace (length l + 1 - Z.to_nat n)%nat with 0%nat by lia. reflexivity.
    + rewrite drop_drop.
      replace (length l + 1 - Z.to_nat n)%nat with (length l - Z.to_nat n + 1)%nat by lia.
      rewrite drop_app_le by lia. reflexivity.
Qed.

Lemma droplast_snoc {A} n (l : list A) x :
  0 <= n ->
  droplast n (l ++ [x]) =
    if n =? 0 then l ++ [x]
    else if Z.of_nat (length l) <? n then []
    else droplast n l ++ take 1 (lastn n l).
Proof.
  intros Hn. unfold droplast, lastn. rewrite length_app. simpl.
  destruct (Z.eqb_spec n 0) as [->|Hn0].
  - simpl. rewrite Nat.sub_0_r. rewrite take_ge; [reflexivity|].
    rewrite length_app. simpl. lia.
  - destruct (Z.ltb_spec (Z.of_nat (length l)) n) as [Hlt|Hge].
    + replace (length l + 1 - Z.to_nat n)%nat with 0%nat by lia. reflexivity.
    + replace (length l + 1 - Z.to_nat n)%nat with (S (length l - Z.to_nat n))%nat by lia.
      rewrite take_app_le by lia.
      set (k := (length l - Z.to_nat n)%nat).
      rewrite take_drop_commute.
      replace (take k l) with (take k (take (k + 1) l))
        by (rewrite take_take; f_equal; lia).
      rewrite take_drop. f_equal. lia.
Qed.

(** [append] keeps a bounded deque equal to the tail of its history. *)
Lemma append_lastn (q : deque) hist x :
  0 <= maxlen q -> items q = lastn (maxlen q) hist ->
  items (append q x) = lastn (maxlen q) (hist ++ [x])
  /\ maxlen (append q x) = maxlen q.
Proof.
  intros Hn Hq. rewrite lastn_snoc by assumption. unfold append, len.
  pose proof (lastn_length (maxlen q) hist Hn) as Hlen. rewrite <- Hq in Hlen.
  destruct (Z.eqb_spec (maxlen q) 0) as [H0|H0].
  - split; [|reflexivity]. rewrite Hq, H0. unfold lastn. simpl.
    rewrite Nat.sub_0_r. apply drop_all.
  - destruct (Z.eqb_spec (Z.of_nat (length (items q))) (maxlen q)) as [Hfull|Hnot]; simpl.
    + destruct (Z.ltb_spec (Z.of_nat (length hist)) (maxlen q)); [lia|].
      rewrite Hq. split; reflexivity.
    + destruct (Z.ltb_spec (Z.of_nat (length hist)) (maxlen q)); [|lia].
      split; [|reflexivity]. rewrite Hq. unfold lastn.
      replace (length hist - Z.to_nat (maxlen q))%nat with 0%nat by lia. reflexivity.
Qed.

Lemma ingest_windows llead llag hist d x d' :
  windows_of llead llag hist d -> ingest d x = Ok d' ->
  windows_of llead llag (hist ++ [x]) d'.
Proof.
  intros [Hls Hgs Hlm Hgm Hl0 Hg0 Hl Hg]. unfold ingest.
  pose proof (lastn_length llead hist Hl0) as Hlen. rewrite <- Hl in Hlen.
  unfold len. rewrite Hls.
  destruct (Z.eqb_spec (Z.of_nat (length (items (_lead_window d)))) llead) as [Hfull|Hnot].
  - unfold popleft. destruct (items (_lead_window d)) as [|o rest] eqn:Hitems; simpl;
      [discriminate|].
    intros [= <-]. simpl in *.
    destruct (append_lastn (_lag_window d) (droplast llead hist) o) as [Hg1 Hg2];
      [lia | rewrite Hgm; exact Hg |].
    assert (Hrest : items (append {| items := rest; maxlen := maxlen (_lead_window d) |} x)
                    = rest ++ [x]
                    /\ maxlen (append {| items := rest; maxlen := maxlen (_lead_window d) |} x)
                       = llead).
    { unfold append, len. simpl. rewrite Hlm.
      destruct (Z.eqb_spec llead 0); [lia|].
      destruct (Z.eqb_spec (Z.of_nat (length rest)) llead); [lia|]. split; reflexivity. }
    destruct Hrest as [Hr1 Hr2].
    split; simpl; try assumption; try lia.
    + rewrite Hr1. rewrite lastn_snoc by assumption.
      destruct (Z.eqb_spec llead 0); [lia|].
      destruct (Z.ltb_spec (Z.of_nat (length hist)) llead); [lia|].
      rewrite <- Hl. reflexivity.
    + rewrite Hg1, Hgm. f_equal. rewrite droplast_snoc by assumption.
      destruct (Z.eqb_spec llead 0); [lia|].
      destruct (Z.ltb_spec (Z.of_nat (length hist)) llead); [lia|].
      rewrite <- Hl. reflexivity.
  - intros [= <-]. simpl.
    destruct (append_lastn (_lead_window d) hist x) as [Hl1 Hl2];
      [lia | rewrite Hlm; exact Hl |].
    split; simpl; try assumption; try lia.
    + rewrite Hl1, Hlm. reflexivity.
    + rewrite Hg. rewrite droplast_snoc by assumption.
      destruct (Z.eqb_spec llead 0); [lia|].
      destruct (Z.ltb_spec (Z.of_nat (length hist)) llead); [|lia].
      unfold droplast. replace (length hist - Z.to_nat llead)%nat with 0%nat by lia.
      reflexivity.
Qed.

Lemma ingest_all_app d xs ys :
  ingest_all d (xs ++ ys) = (let! d' := ingest_all d xs in ingest_all d' ys).
Proof.
  revert d. induction xs as [|x xs IH]; intros d; simpl; [reflexivity|].
  destruct (ingest d x); simpl; [apply IH | reflexivity].
Qed.

Lemma ingest_all_windows llead llag hist d xs d' :
  windows_of llead llag hist d -> ingest_all d xs = Ok d' ->
  windows_of llead llag (hist ++ xs) d'.
Proof.
  revert hist d. induction xs as [|x xs IH]; intros hist d Hw; simpl.
  - intros [= <-]. rewrite app_nil_r. exact Hw.
  - destruct (ingest d x) as [d1|] eqn:Hi; simpl; [|discriminate].
    intros Hall. replace (hist ++ x :: xs) with ((hist ++ [x]) ++ xs)
      by (rewrite <- app_assoc; reflexivity).
    eapply IH; [eapply ingest_windows; eassumption | exact Hall].
Qed.

Lemma __init___windows w wf lf lgf r d0 :
  __init__ w wf lf lgf r = Ok d0 ->
  windows_of (lf * (wf * w)) (lgf * (wf * w)) [] d0.
Proof.
  unfold __init__, deque_new.
  destruct (Z.ltb_spec (lf * (wf * w)) 0); simpl; [discriminate|].
  destruct (Z.ltb_spec (lgf * (wf * w)) 0); simpl; [discriminate|].
  intros [= <-]. split; simpl; try reflexivity; assumption.
Qed.

(** With a positive lead capacity the window update never raises. *)
Lemma ingest_total llead llag hist d x :
  windows_of llead llag hist d -> 0 < llead -> exists d', ingest d x = Ok d'.
Proof.
  intros [Hls Hgs Hlm Hgm Hl0 Hg0 Hl Hg] Hpos. unfold ingest, len. rewrite Hls.
  destruct (Z.eqb_spec (Z.of_nat (length (items (_lead_window d)))) llead) as [Hfull|Hnot].
  - unfold popleft. destruct (items (_lead_window d)) as [|o rest]; simpl in *; [lia|].
    eexists. reflexivity.
  - eexists. reflexivity.
Qed.

Lemma ingest_all_total llead llag hist d xs :
  windows_of llead llag hist d -> 0 < llead -> exists d', ingest_all d xs = Ok d'.
Proof.
  revert hist d. induction xs as [|x xs IH]; intros hist d Hw Hpos; simpl.
  - eexists. reflexivity.
  - destruct (ingest_total _ _ _ _ x Hw Hpos) as [d1 Hd1]. rewrite Hd1. simpl.
    eapply IH; [eapply ingest_windows; eassumption | assumption].
Qed.

(** The eviction step on a full, non-empty lead window. *)
Lemma ingest_evicts llead llag hist d x :
  windows_of llead llag hist d -> 0 < llead ->
  len (_lead_window d) = llead ->
  exists oldest rest d',
    items (_lead_window d) = oldest :: rest /\
    ingest d x = Ok d' /\
    items (_lead_window d') = rest ++ [x] /\
    items (_lag_window d') = lastn llag (items (_lag_window d) ++ [oldest]).
Proof.
  intros Hw Hpos Hfull. pose proof Hw as [Hls Hgs Hlm Hgm Hl0 Hg0 Hl Hg].
  unfold len in Hfull.
  destruct (items (_lead_window d)) as [|o rest] eqn:Hitems; simpl in Hfull; [lia|].
  exists o, rest. unfold ingest, len, popleft. rewrite Hitems, Hls. simpl length.
  rewrite (proj2 (Z.eqb_eq _ _) Hfull). simpl.
  eexists. split; [reflexivity|]. split; [reflexivity|]. simpl. split.
  - unfold append, len. simpl. rewrite Hlm.
    destruct (Z.eqb_spec llead 0); [lia|].
    destruct (Z.eqb_spec (Z.of_nat (length rest)) llead); [lia|]. reflexivity.
  - unfold append, len. rewrite Hgm.
    pose proof (lastn_length llag (droplast llead hist) Hg0) as Hlen. rewrite <- Hg in Hlen.
    unfold lastn. rewrite length_app. simpl length.
    destruct (Z.eqb_spec llag 0) as [->|H0].
    + simpl. rewrite Nat.sub_0_r.
      rewrite drop_ge by (rewrite length_app; simpl; lia).
      destruct (items (_lag_window d)); [reflexivity | simpl in Hlen; lia].
    + destruct (Z.eqb_spec (Z.of_nat (length (items (_lag_window d)))) llag) as [Hf|Hn]; simpl.
      * replace (length (items (_lag_window d)) + 1 - Z.to_nat llag)%nat with 1%nat by lia.
        rewrite drop_app_le by lia. reflexivity.
      * replace (length (items (_lag_window d)) + 1 - Z.to_nat llag)%nat with 0%nat by lia.
        reflexivity.
Qed.

Lemma ingest_all_nonempty llead llag d x xs d' :
  windows_of llead llag [] d -> ingest_all d (x :: xs) = Ok d' -> 0 < llead.
Proof.
  intros [Hls Hgs Hlm Hgm Hl0 Hg0 Hl Hg]. simpl.
  destruct (ingest d x) as [d1|] eqn:Hi; simpl; [|discriminate]. intros _.
  unfold ingest, len in Hi. rewrite Hls, Hl in Hi. unfold lastn in Hi. simpl in Hi.
  destruct (Z.eqb_spec 0 llead) as [<-|Hne]; [|lia].
  unfold popleft in Hi. rewrite Hl in Hi. discriminate.
Qed.

(** C2: after any sequence of single-sample ingestion steps on a newly
    constructed detector, neither window is longer than its capacity,
    lead holds the most recent samples and lag the ones just before
    them, in arrival order; and a further sample arriving at a full lead
    window moves lead's oldest sample to the end of lag, lag keeping its
    last [capacity] samples. *)
Theorem windows_invariant (w wf lf lgf r : Z) (d0 : detector) (xs : list Q) :
  __init__ w wf lf lgf r = Ok d0 ->
  let llead := _lead_window_size d0 in
  let llag := _lag_window_size d0 in
  (0 < llead -> exists d, ingest_all d0 xs = Ok d) /\
  forall d, ingest_all d0 xs = Ok d ->
    len (_lead_window d) <= llead /\
    len (_lag_window d) <= llag /\
    items (_lead_window d) = lastn llead xs /\
    items (_lag_window d) = lastn llag (droplast llead xs) /\
    (xs <> [] -> forall x, len (_lead_window d) = llead ->
       exists oldest rest d',
         items (_lead_window d) = oldest :: rest /\
         ingest d x = Ok d' /\
         items (_lead_window d') = rest ++ [x] /\
         items (_lag_window d') = lastn llag (items (_lag_window d) ++ [oldest])).
Proof.
  intros Hinit llead llag. pose proof (__init___windows _ _ _ _ _ _ Hinit) as Hw0.
  assert (Hll : llead = lf * (wf * w)) by (apply Hw0).
  assert (Hlg : llag = lgf * (wf * w)) by (apply Hw0).
  rewrite <- Hll, <- Hlg in Hw0. split.
  - intros Hpos. eapply ingest_all_total; eassumption.
  - intros d Hall.
    pose proof (ingest_all_windows _ _ _ _ _ _ Hw0 Hall) as Hw. simpl in Hw.
    pose proof Hw as [Hls Hgs Hlm Hgm Hl0 Hg0 Hl Hg].
    pose proof (lastn_length llead xs Hl0) as Hlen1.
    pose proof (lastn_length llag (droplast llead xs) Hg0) as Hlen2.
    unfold len. rewrite Hl, Hg.
    split; [lia|]. split; [lia|]. split; [reflexivity|]. split; [reflexivity|].
    intros Hne x Hfull. destruct xs as [|x0 xs']; [congruence|].
    pose proof (ingest_all_nonempty _ _ _ _ _ _ Hw0 Hall) as Hpos.
    destruct (ingest_evicts _ _ _ _ x Hw Hpos) as (o & rest & d' & H1 & H2 & H3 & H4).
    { unfold len. rewrite Hl. exact Hfull. }
    exists o, rest, d'. rewrite <- Hl, <- Hg. auto.
Qed.

(** ** What [detect] leaves behind *)

Lemma ingest_last_timestamp d x d' :
  ingest d x = Ok d' -> last_timestamp d' = last_timestamp d.
Proof.
  unfold ingest. destruct (len (_lead_window d) =? _lead_window_size d).
  - destruct (popleft (_lead_window d)); simpl; [|discriminate]. intros [= <-]. reflexivity.
  - simpl. intros [= <-]. reflexivity.
Qed.

Lemma ingest_all_last_timestamp d xs d' :
  ingest_all d xs = Ok d' -> last_timestamp d' = last_timestamp d.
Proof.
  revert d. induction xs as [|x xs IH]; intros d; simpl.
  - intros [= <-]. reflexivity.
  - destruct (ingest d x) as [d1|] eqn:Hi; simpl; [|discriminate].
    intros H. rewrite (IH _ H). eapply ingest_last_timestamp, Hi.
Qed.

Section DetectState.

Variable sqrt_fn : Q -> Q.
Variable ppf : Q -> Q.

(** The detector returned by the loop is the one obtained by ingesting a
    prefix of the batch: all of it on success, and on an exception the
    datapoints up to the failing one (included when its detection cycle
    raised, excluded when its window update raised). *)
Lemma detect_loop_prefix xs : forall d acc,
  exists done rest,
    xs = done ++ rest /\
    ingest_all d done = Ok (fst (detect_loop sqrt_fn ppf d acc xs)) /\
    (forall res, snd (detect_loop sqrt_fn ppf d acc xs) = Ok res -> rest = []) /\
    (forall e, snd (detect_loop sqrt_fn ppf d acc xs) = Raise e ->
       (exists x rest', rest = x :: rest' /\
          ingest (fst (detect_loop sqrt_fn ppf d acc xs)) x = Raise e)
       \/ (done <> [] /\
           windows_full (fst (detect_loop sqrt_fn ppf d acc xs)) = true /\
           analyse sqrt_fn ppf (fst (detect_loop sqrt_fn ppf d acc xs)) = Raise e)).
Proof.
  induction xs as [|x xs IH]; intros d acc; simpl.
  - exists [], []. split; [reflexivity|]. split; [reflexivity|].
    split; [reflexivity | intros ? [=]].
  - destruct (ingest d x) as [d1|e1] eqn:Hi.
    + destruct (windows_full d1) eqn:Hfull.
      * destruct (analyse sqrt_fn ppf d1) as [a|e2] eqn:Ha.
        -- destruct (IH d1 (acc ++ [a])) as (done & rest & -> & H2 & H3 & H4).
           exists (x :: done), rest. simpl. rewrite Hi. simpl.
           split; [reflexivity|]. split; [assumption|]. split; [assumption|].
           intros e He. destruct (H4 e He) as [?|(? & ? & ?)]; [left|right]; auto.
        -- exists [x], xs. simpl. rewrite Hi. simpl.
           split; [reflexivity|]. split; [reflexivity|]. split; [intros ? [=]|].
           intros e [= <-]. right. split; [discriminate | auto].
      * destruct (IH d1 acc) as (done & rest & -> & H2 & H3 & H4).
        exists (x :: done), rest. simpl. rewrite Hi. simpl.
        split; [reflexivity|]. split; [assumption|]. split; [assumption|].
        intros e He. destruct (H4 e He) as [?|(? & ? & ?)]; [left|right]; auto.
    + exists [], (x :: xs). simpl.
      split; [reflexivity|]. split; [reflexivity|]. split; [intros ? [=]|].
      intros e [= <-]. left. eauto.
Qed.

(** C10: [detect] records the timestamp before it looks at the batch, so
    it is recorded for an empty batch too, and an exception raised part
    of the way through a batch (the alignment error of [_get_words] or
    any other) leaves the timestamp and the windows as they were when it
    was raised. *)
Theorem detect_keeps_state (d : detector) (xs : list Q) (ts : datetime) :
  let d1 := set_last_timestamp d ts in
  let out := detect sqrt_fn ppf d xs ts in
  last_timestamp (fst out) = ts /\
  (xs = [] -> out = (d1, Ok [])) /\
  exists done rest,
    xs = done ++ rest /\
    ingest_all d1 done = Ok (fst out) /\
    (forall e, snd out = Raise e ->
       (exists x rest', rest = x :: rest' /\ ingest (fst out) x = Raise e)
       \/ (done <> [] /\ windows_full (fst out) = true /\
           analyse sqrt_fn ppf (fst out) = Raise e)).
Proof.
  intros d1 out. unfold out, detect. fold d1.
  destruct (detect_loop_prefix xs d1 []) as (done & rest & H1 & H2 & H3 & H4).
  split; [|split].
  - rewrite (ingest_all_last_timestamp _ _ _ H2). reflexivity.
  - intros ->. reflexivity.
  - exists done, rest. auto.
Qed.

End DetectState.


Lemma windows_invariant_witness :
  let d6 := set_windows example_detector
              {| items := [3; 4; 5; 6]%Q; maxlen := 4 |}
              {| items := [1; 2]%Q; maxlen := 4 |} in
  __init__ 2 2 1 1 2 = Ok example_detector /\
  ingest_all example_detector [1; 2; 3; 4; 5; 6]%Q = Ok d6 /\
  items (_lead_window d6) = lastn 4 [1; 2; 3; 4; 5; 6]%Q /\
  items (_lag_window d6) = lastn 4 (droplast 4 [1; 2; 3; 4; 5; 6]%Q) /\
  exists d7, ingest d6 7 = Ok d7 /\
    items (_lead_window d7) = [4; 5; 6; 7]%Q /\
    items (_lag_window d7) = [1; 2; 3]%Q.
Proof.
  intros d6.
  destruct (windows_invariant 2 2 1 1 2 example_detector [1; 2; 3; 4; 5; 6]%Q eq_refl)
    as [_ H].
  destruct (H d6 eq_refl) as (_ & _ & Hlead & Hlag & Hstep).
  split; [reflexivity|]. split; [reflexivity|].
  split; [exact Hlead|]. split; [exact Hlag|].
  destruct (Hstep ltac:(discriminate) 7%Q eq_refl)
    as (oldest & rest & d7 & H1 & H2 & H3 & H4).
  injection H1 as <- <-.
  exists d7. split; [exact H2|]. split; [exact H3 | exact H4].
Defined.

Lemma detect_keeps_state_witness :
  let out := detect sqrt_approx ppf_table misaligned_detector [1; 2; 3; 4]%Q 7 in
  snd out = Raise PlainException /\
  last_timestamp (fst out) = 7 /\
  items (_lead_window (fst out)) = [1; 2; 3]%Q /\
  exists done rest,
    [1; 2; 3; 4]%Q = done ++ rest /\
    ingest_all (set_last_timestamp misaligned_detector 7) done = Ok (fst out) /\
    done <> [] /\
    analyse sqrt_approx ppf_table (fst out) = Raise PlainException.
Proof.
  intros out.
  destruct (detect_keeps_state sqrt_approx ppf_table misaligned_detector
              [1; 2; 3; 4]%Q 7) as (Hts & _ & done & rest & Hsplit & Hing & Herr).
  split; [reflexivity|]. split; [exact Hts|]. split; [reflexivity|].
  exists done, rest. split; [exact Hsplit|]. split; [exact Hing|].
  destruct (Herr PlainException eq_refl) as [(x & rest' & _ & Hx)|(Hne & _ & Ha)].
  - discriminate Hx.
  - split; [exact Hne | exact Ha].
Defined.

(** ** Library functions *)

Lemma section_sizes_sum n k : (0 < k)%nat -> sum_list (section_sizes n k) = n.
Proof.
  intros Hk. unfold section_sizes. rewrite sum_list_with_app, !sum_list_replicate.
  pose proof (Nat.div_mod_eq n k). pose proof (Nat.mod_upper_bound n k). nia.
Qed.

Lemma section_sizes_length n k : (0 < k)%nat -> length (section_sizes n k) = k.
Proof.
  intros Hk. unfold section_sizes. rewrite length_app, !length_replicate.
  pose proof (Nat.mod_upper_bound n k). lia.
Qed.

Lemma section_sizes_elem n k s :
  s ∈ section_sizes n k -> s = (n / k)%nat \/ s = S (n / k).
Proof.
  unfold section_sizes. rewrite elem_of_app.
  intros [H|H]; apply elem_of_replicate_inv in H; auto.
Qed.

Lemma reshape_lengths {A} (ary : list A) sizes :
  sum_list sizes = length ary -> map length (reshape sizes ary) = sizes.
Proof.
  revert ary. induction sizes as [|s sizes IH]; intros ary Hsum; simpl in *; [reflexivity|].
  rewrite length_take, IH by (rewrite length_drop; lia). f_equal. lia.
Qed.

(** [np.array_split] cuts the array into [sections] contiguous pieces
    whose lengths differ by at most one. *)
Lemma array_split_spec {A} (ary : list A) (sections : Z) :
  0 < sections ->
  exists pieces,
    array_split ary sections = Ok pieces /\
    Z.of_nat (length pieces) = sections /\
    mjoin pieces = ary /\
    Forall (fun p => length p = (length ary / Z.to_nat sections)%nat \/
                     length p = S (length ary / Z.to_nat sections)) pieces.
Proof.
  intros Hs. unfold array_split. destruct (Z.leb_spec sections 0); [lia|].
  assert (Hk : (0 < Z.to_nat sections)%nat) by lia.
  pose proof (section_sizes_sum (length ary) _ Hk) as Hsum.
  eexists. split; [reflexivity|]. split; [|split].
  - rewrite length_reshape, section_sizes_length by assumption. lia.
  - apply join_reshape, Hsum.
  - pose proof (reshape_lengths ary _ Hsum) as Hl.
    apply Forall_forall. intros p Hp. apply (section_sizes_elem (length ary)).
    rewrite <- Hl. apply list_elem_of_fmap. exists p. auto.
Qed.


Lemma linspace_length start stop num pts :
  linspace start stop num = Ok pts -> Z.of_nat (length pts) = num.
Proof.
  unfold linspace. destruct (Z.ltb_spec num 0); [discriminate|].
  destruct (Z.eqb_spec num 1) as [->|]; intros [= <-]; [reflexivity|].
  rewrite length_map, length_seq. lia.
Qed.

Lemma linspace_ok start stop num :
  0 <= num -> exists pts, linspace start stop num = Ok pts.
Proof.
  intros Hn. unfold linspace. destruct (Z.ltb_spec num 0); [lia|].
  destruct (num =? 1); eexists; reflexivity.
Qed.


Lemma mapM_inv {A B} (f : A -> result B) l bs :
  mapM f l = Ok bs -> Forall2 (fun a b => f a = Ok b) l bs.
Proof.
  revert bs. induction l as [|a l IH]; simpl; intros bs.
  - intros [= <-]. constructor.
  - destruct (f a) as [b|] eqn:Hb; simpl; [|discriminate].
    destruct (mapM f l) as [bs'|]; simpl; [|discriminate].
    intros [= <-]. constructor; auto.
Qed.

(** The first index at which a predicate holds. *)
Lemma first_index_spec {A} (p : A -> bool) l i :
  first_index p l = Ok i <->
  (exists a, l !! i = Some a /\ p a = true) /\
  (forall j a, (j < i)%nat -> l !! j = Some a -> p a = false).
Proof.
  revert i. induction l as [|x l IH]; intros i; simpl.
  - split; [discriminate | intros [(a & Ha & _) _]; discriminate].
  - destruct (p x) eqn:Hx.
    + split.
      * intros [= <-]. split; [exists x; auto | intros; lia].
      * intros [(a & Ha & Hpa) Hmin]. destruct i as [|i]; [reflexivity|].
        specialize (Hmin 0%nat x ltac:(lia) eq_refl). congruence.
    + destruct i as [|i].
      * split.
        -- destruct (first_index p l); simpl; discriminate.
        -- intros [(a & Ha & Hpa) _]. simpl in Ha. congruence.
      * transitivity (first_index p l = Ok i).
        { destruct (first_index p l); simpl; split; intros [=]; subst; reflexivity. }
        rewrite IH. split; intros [(a & Ha & Hpa) Hmin]; (split; [eauto|]).
        -- intros [|j] b Hj Hb; simpl in Hb; [congruence | eapply Hmin; [|exact Hb]; lia].
        -- intros j b Hj Hb. apply (Hmin (S j) b); [lia | exact Hb].
Qed.

Lemma first_index_none {A} (p : A -> bool) l :
  Forall (fun a => p a = false) l -> first_index p l = Raise IndexError.
Proof.
  induction 1 as [|a l Ha _ IH]; simpl; [reflexivity|]. rewrite Ha, IH. reflexivity.
Qed.

Lemma first_index_bound {A} (p : A -> bool) l i :
  first_index p l = Ok i -> (i < length l)%nat.
Proof.
  intros H. apply first_index_spec in H as [(a & Ha & _) _].
  eapply lookup_lt_Some, Ha.
Qed.



Lemma string_of_list_ascii_length l :
  String.length (string_of_list_ascii l) = length l.
Proof. induction l; simpl; auto. Qed.

Lemma string_of_list_ascii_get l i :
  String.get i (string_of_list_ascii l) = l !! i.
Proof.
  revert i. induction l as [|c l IH]; intros [|i]; simpl; auto.
Qed.

(** ** Finite arithmetic *)

Lemma fold_left_Qplus l acc : (fold_left Qplus l acc == acc + Qsum l)%Q.
Proof.
  unfold Qsum. revert acc. induction l as [|x l IH]; intros acc; simpl.
  - ring.
  - rewrite (IH (acc + x)%Q), (IH (0 + x)%Q). ring.
Qed.

Lemma Qsum_cons x l : (Qsum (x :: l) == x + Qsum l)%Q.
Proof. unfold Qsum at 1. simpl. rewrite fold_left_Qplus. ring. Qed.


Lemma Qsum_ext l1 l2 : Forall2 Qeq l1 l2 -> (Qsum l1 == Qsum l2)%Q.
Proof. induction 1; [reflexivity | rewrite !Qsum_cons; lra]. Qed.














Section Sax.

Variable sqrt_fn : Q -> Q.
Variable ppf : Q -> Q.




Hypothesis sqrt_fn_proper : forall u v, (u == v)%Q -> (sqrt_fn u == sqrt_fn v)%Q.


Lemma sax_breakpoints_ok a :
  1 <= a ->
  exists pts, sax_breakpoints ppf a = Ok (map (norm_ppf ppf) pts ++ [PInf]) /\
              Z.of_nat (length pts) = a - 1.
Proof.
  intros Ha. unfold sax_breakpoints. destruct (Z.eqb_spec a 0); [lia|].
  destruct (linspace_ok (1 / inject_Z a) (1 - 1 / inject_Z a) (a - 1)) as [pts Hpts]; [lia|].
  rewrite Hpts. simpl. exists pts. split; [reflexivity|].
  eapply linspace_length, Hpts.
Qed.






End Sax.

(** ** SAX words *)



Section SaxWords.

Variable sqrt_fn : Q -> Q.
Variable ppf : Q -> Q.
Hypothesis sqrt_fn_proper : forall u v, (u == v)%Q -> (sqrt_fn u == sqrt_fn v)%Q.


Hypothesis sqrt_fn_zero : forall v, (0 <= v)%Q -> (sqrt_fn v == 0)%Q -> (v == 0)%Q.






Lemma locate_nan bps : locate bps NaN = Raise IndexError.
Proof.
  unfold locate. apply first_index_none, Forall_forall. intros b _.
  destruct b; reflexivity.
Qed.



End SaxWords.








(** ** Word extraction *)

Lemma mapM_raise {A B} (f : A -> result B) l e :
  mapM f l = Raise e -> exists a, a ∈ l /\ f a = Raise e.
Proof.
  induction l as [|a l IH]; simpl; [discriminate|].
  destruct (f a) as [b|e'] eqn:Hb; simpl.
  - destruct (mapM f l) as [bs|e'] eqn:Hbs; simpl; [discriminate|].
    intros [= <-]. destruct (IH eq_refl) as (a' & Ha' & Hf).
    exists a'. split; [right; exact Ha' | exact Hf].
  - intros [= <-]. exists a. split; [left | exact Hb].
Qed.

Lemma mapM_length {A B} (f : A -> result B) l bs :
  mapM f l = Ok bs -> length bs = length l.
Proof. intros H. apply mapM_inv, Forall2_length in H. auto. Qed.


Section Words.

Variable sqrt_fn : Q -> Q.
Variable ppf : Q -> Q.

Lemma first_index_raise {A} (p : A -> bool) l e :
  first_index p l = Raise e -> e = IndexError.
Proof.
  induction l as [|a l IH]; simpl; [congruence|].
  destruct (p a); [discriminate|].
  destruct (first_index p l); simpl; [discriminate|]. intros [= <-]. auto.
Qed.






End Words.



(** ** Strings *)

Lemma append_nil_l t : EmptyString +:+ t = t.
Proof. reflexivity. Qed.

Lemma append_cons a s t : String a s +:+ t = String a (s +:+ t).
Proof. reflexivity. Qed.

Lemma length_append s t :
  String.length (s +:+ t) = (String.length s + String.length t)%nat.
Proof.
  induction s as [|a s IH]; [reflexivity|].
  rewrite append_cons. simpl. rewrite IH. reflexivity.
Qed.

Lemma list_ascii_of_string_append s t :
  list_ascii_of_string (s +:+ t) = list_ascii_of_string s ++ list_ascii_of_string t.
Proof.
  induction s as [|a s IH]; [reflexivity|].
  rewrite append_cons. simpl. rewrite IH. reflexivity.
Qed.

Lemma length_list_ascii_of_string s :
  length (list_ascii_of_string s) = String.length s.
Proof. induction s; simpl; auto. Qed.

Lemma string_snoc s k :
  String.length s = S k ->
  exists c x, s = c +:+ String x EmptyString /\ String.length c = k.
Proof.
  revert k. induction s as [|a s IH]; intros k; simpl; [discriminate|].
  intros [= Hlen]. destruct s as [|b s'].
  - exists EmptyString, a. simpl in Hlen. subst k. auto.
  - destruct k as [|k]; [discriminate|].
    destruct (IH k Hlen) as (c & x & Hc & Hk).
    exists (String a c), x. split; [rewrite Hc; reflexivity | simpl; lia].
Qed.

Lemma append_single_inj c1 c2 x y :
  c1 +:+ String x EmptyString = c2 +:+ String y EmptyString -> c1 = c2 /\ x = y.
Proof.
  revert c2. induction c1 as [|a c1 IH]; intros [|b c2];
    rewrite ?append_nil_l, ?append_cons; intros H.
  - injection H as ->. auto.
  - injection H as _ H. destruct c2; discriminate.
  - injection H as _ H. destruct c1; discriminate.
  - injection H as -> H. destruct (IH _ H) as [-> ->]. auto.
Qed.

Lemma substring_length_le n m s : (String.length (substring n m s) <= String.length s)%nat.
Proof.
  revert n m. induction s as [|c s IH]; intros [|n] [|m]; simpl; try lia.
  - specialize (IH 0%nat m). lia.
  - specialize (IH n 0%nat). lia.
  - specialize (IH n (S m)). lia.
Qed.

(** ** Counting subwords *)

Lemma count_step_acc (stack needle : string) l acc :
  fold_left (fun count i =>
               if String.eqb (substring i (String.length needle) stack) needle
               then count + 1 else count) l acc
  = acc + fold_left (fun count i =>
               if String.eqb (substring i (String.length needle) stack) needle
               then count + 1 else count) l 0.
Proof.
  revert acc. induction l as [|i l IH]; intros acc; simpl; [lia|].
  destruct (String.eqb _ _); [|apply IH].
  rewrite (IH (acc + 1)), (IH (0 + 1)). lia.
Qed.

Lemma prefix_eqb needle stack :
  String.prefix needle stack
  = String.eqb (substring 0 (String.length needle) stack) needle.
Proof.
  destruct (String.eqb_spec (substring 0 (String.length needle) stack) needle) as [H|H].
  - apply prefix_correct, H.
  - destruct (String.prefix needle stack) eqn:E; [|reflexivity].
    apply prefix_correct in E. contradiction.
Qed.

Lemma prefix_too_long needle stack :
  (String.length stack < String.length needle)%nat -> String.prefix needle stack = false.
Proof.
  intros Hlen. destruct (String.prefix needle stack) eqn:E; [|reflexivity].
  apply prefix_correct in E.
  pose proof (substring_length_le 0 (String.length needle) stack) as H.
  rewrite E in H. lia.
Qed.

Lemma occurrences_too_long needle stack :
  (String.length stack < String.length needle)%nat -> occurrences needle stack = 0%nat.
Proof.
  induction stack as [|c s IH]; cbn [occurrences]; intros Hlen.
  - rewrite (prefix_too_long needle EmptyString) by exact Hlen. reflexivity.
  - rewrite (prefix_too_long needle (String c s)) by exact Hlen.
    rewrite IH by (simpl in Hlen; lia). reflexivity.
Qed.

Lemma fold_left_map_shift {A B C} (f : A -> B -> A) (g : C -> B) l acc :
  fold_left f (map g l) acc = fold_left (fun a c => f a (g c)) l acc.
Proof. revert acc. induction l as [|c l IH]; intros acc; simpl; [reflexivity | apply IH]. Qed.

(** [_count_substr] counts the starting positions, overlaps included. *)
Lemma _count_substr_occurrences stack needle :
  _count_substr stack needle = Z.of_nat (occurrences needle stack).
Proof.
  unfold _count_substr. induction stack as [|c s IH].
  - simpl String.length. destruct needle as [|a needle]; [reflexivity|].
    simpl String.length.
    replace (Z.to_nat (Z.of_nat 0 - Z.of_nat (S (String.length needle)) + 1)) with 0%nat by lia.
    reflexivity.
  - destruct (le_lt_dec (String.length needle) (S (String.length s))) as [Hle|Hgt].
    + simpl String.length.
      replace (Z.to_nat (Z.of_nat (S (String.length s)) - Z.of_nat (String.length needle) + 1))
        with (S (Z.to_nat (Z.of_nat (String.length s) - Z.of_nat (String.length needle) + 1)))
        by lia.
      rewrite <- cons_seq, <- fmap_S_seq. cbn [fold_left].
      rewrite count_step_acc.
      change (fmap S) with (map S). rewrite fold_left_map_shift. cbn [substring].
      rewrite IH. cbn [occurrences]. rewrite prefix_eqb.
      destruct (String.eqb _ _); lia.
    + rewrite (occurrences_too_long needle (String c s)) by (simpl; lia).
      simpl String.length.
      replace (Z.to_nat (Z.of_nat (S (String.length s)) - Z.of_nat (String.length needle) + 1))
        with 0%nat by lia.
      reflexivity.
Qed.

Example count_aa_in_aaaa : _count_substr "aaaa" "aa" = 3.
Proof. reflexivity. Qed.

(** ** Combinations *)

Lemma elem_of_chars alphabet a :
  a ∈ chars alphabet <->
  exists x, a = String x EmptyString /\ x ∈ list_ascii_of_string alphabet.
Proof. unfold chars. apply list_elem_of_fmap. Qed.

Lemma elem_of_extend alphabet (combinations : gset string) s :
  s ∈ extend alphabet combinations <->
  exists c x, s = c +:+ String x EmptyString /\
              c ∈ combinations /\ x ∈ list_ascii_of_string alphabet.
Proof.
  unfold extend. rewrite elem_of_list_to_set, list_elem_of_bind. split.
  - intros (a & Hs & Ha). apply list_elem_of_bind in Hs as (c & Hs & Hc).
    apply list_elem_of_singleton in Hs. apply elem_of_elements in Hc.
    apply elem_of_chars in Ha as (x & -> & Hx). eauto.
  - intros (c & x & -> & Hc & Hx). exists (String x EmptyString). split.
    + apply list_elem_of_bind. exists c. split; [apply list_elem_of_singleton; reflexivity|].
      apply elem_of_elements, Hc.
    + apply elem_of_chars. eauto.
Qed.

Lemma all_words_seed alphabet :
  all_words alphabet 1 (list_to_set (chars alphabet)).
Proof.
  intros s. rewrite elem_of_list_to_set, elem_of_chars. unfold over. split.
  - intros (x & -> & Hx). split; [reflexivity|]. simpl. constructor; [exact Hx | constructor].
  - intros [Hlen Hover]. destruct s as [|x [|y s]]; try discriminate.
    exists x. split; [reflexivity|]. simpl in Hover. inversion Hover; assumption.
Qed.

Lemma all_words_extend alphabet k combinations :
  all_words alphabet k combinations ->
  all_words alphabet (S k) (extend alphabet combinations).
Proof.
  intros Hall s. rewrite elem_of_extend. unfold over. split.
  - intros (c & x & -> & Hc & Hx). apply Hall in Hc as [Hlen Hover].
    rewrite length_append, list_ascii_of_string_append. simpl. split; [lia|].
    apply Forall_app. split; [exact Hover | constructor; [exact Hx | constructor]].
  - intros [Hlen Hover]. destruct (string_snoc s k Hlen) as (c & x & -> & Hc).
    rewrite list_ascii_of_string_append in Hover. apply Forall_app in Hover as [H1 H2].
    exists c, x. split; [reflexivity|]. split.
    + apply Hall. split; assumption.
    + simpl in H2. inversion H2; assumption.
Qed.

Lemma length_bind_const {A B} (f : A -> list B) l m :
  (forall a, a ∈ l -> length (f a) = m) -> length (l ≫= f) = (length l * m)%nat.
Proof.
  induction l as [|a l IH]; intros Hf; [reflexivity|].
  change ((a :: l) ≫= f) with (f a ++ (l ≫= f)).
  rewrite length_app, Hf, IH; [simpl; lia | | left].
  intros b Hb. apply Hf. right. exact Hb.
Qed.

Lemma size_extend alphabet (combinations : gset string) :
  size (extend alphabet combinations)
  = (alphabet_size alphabet * size combinations)%nat.
Proof.
  unfold alphabet_size.
  set (A := list_to_set (chars alphabet) : gset string).
  set (l := elements A ≫= (fun a => elements combinations ≫= (fun c => [c +:+ a]))).
  assert (Heq : extend alphabet combinations = list_to_set l).
  { apply set_eq. intros s. unfold extend, l.
    rewrite !elem_of_list_to_set, !list_elem_of_bind.
    split; intros (a & Hs & Ha); exists a; (split; [exact Hs|]).
    - apply elem_of_elements, elem_of_list_to_set, Ha.
    - apply elem_of_elements, elem_of_list_to_set in Ha. exact Ha. }
  assert (Hsingle : forall a, a ∈ elements A -> exists x, a = String x EmptyString).
  { intros a Ha. apply elem_of_elements, elem_of_list_to_set, elem_of_chars in Ha
      as (x & -> & _). eauto. }
  rewrite Heq, size_list_to_set.
  - unfold l. rewrite (length_bind_const _ _ (size combinations)); [reflexivity|].
    intros a _. rewrite (length_bind_const _ _ 1%nat); [unfold size, set_size; simpl; lia|].
    reflexivity.
  - unfold l. apply NoDup_bind; [| |apply NoDup_elements].
    + intros a1 a2 s Ha1 Ha2 Hs1 Hs2.
      apply list_elem_of_bind in Hs1 as (c1 & Hs1 & _), Hs2 as (c2 & Hs2 & _).
      apply list_elem_of_singleton in Hs1, Hs2.
      destruct (Hsingle a1 Ha1) as [x1 ->], (Hsingle a2 Ha2) as [x2 ->].
      rewrite Hs1 in Hs2. apply append_single_inj in Hs2 as [_ ->]. reflexivity.
    + intros a Ha. destruct (Hsingle a Ha) as [x ->].
      apply NoDup_bind; [| |apply NoDup_elements].
      * intros c1 c2 s _ _ Hs1 Hs2. apply list_elem_of_singleton in Hs1, Hs2.
        rewrite Hs1 in Hs2. apply append_single_inj in Hs2 as [-> _]. reflexivity.
      * intros c _. apply NoDup_singleton.
Qed.

Lemma combos_of_seed alphabet : combos_of alphabet 1 (list_to_set (chars alphabet)).
Proof. split; [apply all_words_seed | unfold alphabet_size; simpl; lia]. Qed.

Lemma combos_of_extend alphabet k combinations :
  combos_of alphabet k combinations ->
  combos_of alphabet (S k) (extend alphabet combinations).
Proof.
  intros [Hall Hsize]. split; [apply all_words_extend, Hall|].
  rewrite size_extend, Hsize. simpl. reflexivity.
Qed.

(** Over an alphabet without symbols every set of combinations is empty. *)
Lemma no_symbols_chars alphabet :
  alphabet_size alphabet = 0%nat -> (list_to_set (chars alphabet) : gset string) = ∅.
Proof. intros H0. apply leibniz_equiv, size_empty_inv, H0. Qed.

Lemma extend_empty alphabet : extend alphabet ∅ = ∅.
Proof.
  apply leibniz_equiv, size_empty_inv. rewrite size_extend, size_empty. lia.
Qed.

Lemma combos_of_empty alphabet k :
  alphabet_size alphabet = 0%nat -> (1 <= k)%nat -> combos_of alphabet k ∅.
Proof.
  intros H0 Hk. revert k Hk.
  assert (H1 : combos_of alphabet 1 ∅)
    by (rewrite <- (no_symbols_chars alphabet H0); apply combos_of_seed).
  induction k as [|k IH]; intros Hk; [lia|].
  destruct k as [|k]; [exact H1|].
  rewrite <- (extend_empty alphabet). apply combos_of_extend, IH. lia.
Qed.

Lemma _build_combinations_rec_unfold fuel alphabet combinations len :
  _build_combinations_rec fuel alphabet combinations len =
  let combinations' :=
    if (size combinations =? 0)%nat then list_to_set (chars alphabet) else combinations in
  let len' := if (size combinations =? 0)%nat then len - 1 else len in
  if len' <=? 0 then combinations'
  else match fuel with
       | O => combinations'
       | S fuel' =>
           _build_combinations_rec fuel' alphabet (extend alphabet combinations') (len' - 1)
       end.
Proof. destruct fuel; simpl; destruct (size combinations =? 0)%nat; reflexivity. Qed.

Lemma _build_combinations_rec_no_symbols alphabet fuel len :
  alphabet_size alphabet = 0%nat ->
  _build_combinations_rec fuel alphabet ∅ len = ∅.
Proof.
  intros H0. revert len. induction fuel as [|fuel IH]; intros len;
    rewrite _build_combinations_rec_unfold, size_empty; simpl;
    rewrite (no_symbols_chars alphabet H0).
  - destruct (len - 1 <=? 0); reflexivity.
  - destruct (len - 1 <=? 0); [reflexivity|]. rewrite extend_empty. apply IH.
Qed.

Lemma _build_combinations_rec_spec alphabet fuel : forall combinations len k,
  (1 <= k)%nat -> combos_of alphabet k combinations ->
  (Z.to_nat len <= fuel)%nat ->
  combos_of alphabet (k + Z.to_nat len)
    (_build_combinations_rec fuel alphabet combinations len).
Proof.
  destruct (decide (alphabet_size alphabet = 0%nat)) as [H0|H0].
  - intros combinations len k Hk [Hall Hsize] _.
    assert (combinations = ∅) as ->.
    { apply leibniz_equiv, size_empty_inv. rewrite Hsize, H0.
      destruct k; [lia | reflexivity]. }
    rewrite _build_combinations_rec_no_symbols by assumption.
    apply combos_of_empty; [assumption | lia].
  - induction fuel as [|fuel IH]; intros combinations len k Hk Hc Hfuel;
      rewrite _build_combinations_rec_unfold;
      (assert (Hsize : (size combinations =? 0)%nat = false);
       [apply Nat.eqb_neq; rewrite (proj2 Hc); apply Nat.pow_nonzero; exact H0|]);
      rewrite Hsize; simpl.
    + destruct (Z.leb_spec len 0).
      * replace (k + Z.to_nat len)%nat with k by lia. exact Hc.
      * lia.
    + destruct (Z.leb_spec len 0).
      * replace (k + Z.to_nat len)%nat with k by lia. exact Hc.
      * replace (k + Z.to_nat len)%nat with (S k + Z.to_nat (len - 1))%nat by lia.
        apply IH; [lia | apply combos_of_extend, Hc | lia].
Qed.

(** [_build_combinations(alphabet, set(), n)] is the set of all words of
    length [max(n, 1)] over the alphabet. *)
Lemma _build_combinations_spec alphabet n :
  combos_of alphabet (Z.to_nat (Z.max n 1)) (_build_combinations alphabet ∅ n).
Proof.
  unfold _build_combinations. rewrite _build_combinations_rec_unfold, size_empty. simpl.
  destruct (Z.leb_spec (n - 1) 0).
  - replace (Z.to_nat (Z.max n 1)) with 1%nat by lia. apply combos_of_seed.
  - destruct (Z.to_nat n) as [|fuel] eqn:Hfuel; [lia|].
    replace (Z.to_nat (Z.max n 1)) with (2 + Z.to_nat (n - 1 - 1))%nat by lia.
    apply _build_combinations_rec_spec; [lia | apply combos_of_extend, combos_of_seed | lia].
Qed.

(** ** Frequency tables *)

Lemma count_frequencies_lookup words : forall (freqs : gmap string Q) key,
  fold_left
    (fun (freqs : gmap string Q) word =>
       map_imap (fun key v => Some (v + inject_Z (_count_substr word key))%Q) freqs)
    words freqs !! key
  = count_all key words <$> (freqs !! key).
Proof.
  induction words as [|word words IH]; intros freqs key; simpl.
  - destruct (freqs !! key); reflexivity.
  - rewrite IH, map_lookup_imap. destruct (freqs !! key); reflexivity.
Qed.

Lemma count_all_sum key words v :
  (count_all key words v
   == v + inject_Z (Z.of_nat (sum_list (occurrences key <$> words))))%Q.
Proof.
  unfold count_all. revert v. induction words as [|word words IH]; intros v; simpl.
  - ring.
  - rewrite IH, _count_substr_occurrences.
    change (sum_list (occurrences key <$> word :: words))
      with (occurrences key word + sum_list (occurrences key <$> words))%nat.
    rewrite Nat2Z.inj_add, inject_Z_plus, Qplus_assoc. reflexivity.
Qed.

Lemma _count_frequencies_lookup words alphabet n key :
  _count_frequencies words alphabet n !! key
  = if decide (key ∈ _build_combinations alphabet ∅ n)
    then Some (count_all key words 0%Q) else None.
Proof.
  unfold _count_frequencies. rewrite count_frequencies_lookup, lookup_gset_to_gmap.
  destruct (decide (key ∈ _build_combinations alphabet ∅ n)) as [H|H].
  - rewrite option_guard_True by exact H. reflexivity.
  - rewrite option_guard_False by exact H. reflexivity.
Qed.

Lemma _count_frequencies_dom words alphabet n :
  dom (_count_frequencies words alphabet n) = _build_combinations alphabet ∅ n.
Proof.
  apply set_eq. intros key. rewrite elem_of_dom, _count_frequencies_lookup.
  destruct (decide (key ∈ _build_combinations alphabet ∅ n)) as [H|H].
  - split; [intros _; exact H | intros _; eexists; reflexivity].
  - split; [intros [? [=]] | contradiction].
Qed.

Lemma _count_frequencies_nonneg words alphabet n key v :
  _count_frequencies words alphabet n !! key = Some v -> (0 <= v)%Q.
Proof.
  rewrite _count_frequencies_lookup. destruct (decide _); [|discriminate].
  intros [= <-]. rewrite count_all_sum.
  assert (0 <= inject_Z (Z.of_nat (sum_list (occurrences key <$> words))))%Q.
  { replace 0%Q with (inject_Z 0) by reflexivity. rewrite <- Zle_Qle. lia. }
  lra.
Qed.

(** C3 (amended): for a subword length [n >= 1] the keys of the table
    are exactly the words of length [n] over the alphabet, there are
    [alphabet_size ^ n] of them whatever the words are, and the count of
    a key is the total number of its occurrences in the words, overlaps
    included (so 0 when it occurs in none). *)
Theorem count_frequencies_table (words : list string) (alphabet : string) (n : Z) :
  1 <= n ->
  let freqs := _count_frequencies words alphabet n in
  (forall key, key ∈ dom freqs <->
               String.length key = Z.to_nat n /\ over alphabet key) /\
  size (dom freqs) = (alphabet_size alphabet ^ Z.to_nat n)%nat /\
  (forall key, key ∈ dom freqs ->
     exists v, freqs !! key = Some v /\
       (v == inject_Z (Z.of_nat (sum_list (occurrences key <$> words))))%Q) /\
  occurrences "aa" "aaaa" = 3%nat.
Proof.
  intros Hn freqs. subst freqs. rewrite _count_frequencies_dom.
  destruct (_build_combinations_spec alphabet n) as [Hall Hsize].
  replace (Z.to_nat (Z.max n 1)) with (Z.to_nat n) in * by lia.
  split; [exact Hall|]. split; [exact Hsize|]. split; [|reflexivity].
  intros key Hkey. rewrite _count_frequencies_lookup.
  destruct (decide _); [|contradiction].
  eexists. split; [reflexivity|]. rewrite count_all_sum. ring.
Qed.

Lemma count_frequencies_table_witness :
  size (dom (_count_frequencies ["aaaa"; "abab"] "abcd" 2)) = 16%nat /\
  exists v, _count_frequencies ["aaaa"; "abab"] "abcd" 2 !! "aa" = Some v /\ (v == 3)%Q.
Proof.
  destruct (count_frequencies_table ["aaaa"; "abab"] "abcd" 2 ltac:(lia))
    as (Hdom & Hsize & Hcount & _).
  split; [exact Hsize|].
  destruct (Hcount "aa") as (v & Hv & Hv3).
  - apply Hdom. split; [reflexivity|]. repeat constructor.
  - exists v. split; [exact Hv | exact Hv3].
Defined.

(** C3, counterexample: for the subword length 0 the table has the four
    one-letter keys, not the single word of length 0. *)
Lemma count_frequencies_length_zero :
  dom (_count_frequencies ["ab"] "abcd" 0) = {["a"; "b"; "c"; "d"]} /\
  size (dom (_count_frequencies ["ab"] "abcd" 0)) = 4%nat /\
  (alphabet_size "abcd" ^ Z.to_nat 0 = 1)%nat.
Proof.
  rewrite _count_frequencies_dom. split; [|split]; vm_compute; reflexivity.
Qed.

(** ** Bitmaps *)

Lemma py_max_spec l m :
  py_max l = Ok m -> m ∈ l /\ Forall (fun v => v <= m)%Q l.
Proof.
  destruct l as [|x l]; simpl; [discriminate|]. intros [= <-].
  assert (H : forall l acc,
            (fold_left (fun m v => if Qlt_le_dec m v then v else m) l acc ∈ acc :: l) /\
            (acc <= fold_left (fun m v => if Qlt_le_dec m v then v else m) l acc)%Q /\
            Forall (fun v => v <= fold_left (fun m v => if Qlt_le_dec m v then v else m) l acc)%Q l).
  { clear. induction l as [|v l IH]; intros acc; simpl.
    - split; [left|]. split; [lra | constructor].
    - destruct (Qlt_le_dec acc v) as [Hlt|Hle].
      + destruct (IH v) as (H1 & H2 & H3). split; [right; exact H1|].
        split; [lra|]. constructor; assumption.
      + destruct (IH acc) as (H1 & H2 & H3). split.
        * apply elem_of_cons in H1 as [->|H1]; [left | right; right; exact H1].
        * split; [exact H2|]. constructor; [lra | exact H3]. }
  destruct (H l x) as (H1 & H2 & H3). split; [exact H1|]. constructor; assumption.
Qed.

Lemma py_max_ok l : l <> [] -> exists m, py_max l = Ok m.
Proof. destruct l; [congruence|]. intros _. eexists. reflexivity. Qed.

Lemma normalize_range max_value v :
  (0 <= v)%Q -> (v <= max_value)%Q ->
  (0 <= normalize max_value v)%Q /\ (normalize max_value v <= 1)%Q.
Proof.
  intros H0 Hle. unfold normalize. destruct (Qeq_bool max_value 0) eqn:E.
  - split; lra.
  - apply Qeq_bool_neq in E. assert (0 < max_value)%Q by lra. split.
    + apply Qle_shift_div_l; lra.
    + apply Qle_shift_div_r; lra.
Qed.

Lemma np_zeros_shape rows cols :
  length (np_zeros rows cols) = rows /\
  Forall (fun row => length row = cols) (np_zeros rows cols).
Proof.
  unfold np_zeros. rewrite length_replicate. split; [reflexivity|].
  apply Forall_replicate. apply length_replicate.
Qed.

Lemma setitem_spec (b : bitmap) side i j v :
  length b = side -> Forall (fun row => length row = side) b ->
  (i < side)%nat -> (j < side)%nat ->
  exists b', setitem b i j v = Ok b' /\
    length b' = side /\ Forall (fun row => length row = side) b' /\
    getitem b' i j = Some v /\
    forall i' j', (i', j') <> (i, j) -> getitem b' i' j' = getitem b i' j'.
Proof.
  intros Hrows Hcols Hi Hj. unfold setitem.
  destruct (b !! i) as [row|] eqn:Hrow; [|apply lookup_ge_None in Hrow; lia].
  assert (Hlen : length row = side) by (eapply Forall_lookup_1 in Hcols; eauto).
  destruct (decide (j < length row)%nat) as [_|]; [|lia].
  eexists. split; [reflexivity|]. split; [rewrite length_insert; exact Hrows|].
  split; [|split].
  - apply Forall_insert; [exact Hcols | rewrite length_insert; exact Hlen].
  - unfold getitem. rewrite list_lookup_insert_eq by lia. simpl.
    apply list_lookup_insert_eq. lia.
  - intros i' j' Hne. unfold getitem.
    destruct (decide (i' = i)) as [->|Hi'].
    + rewrite list_lookup_insert_eq by lia. rewrite Hrow. simpl.
      apply list_lookup_insert_ne. congruence.
    + rewrite list_lookup_insert_ne by congruence. reflexivity.
Qed.

Lemma div_mod_pair side p t :
  (0 < side)%nat -> (p / side, p mod side)%nat = (t / side, t mod side)%nat -> p = t.
Proof.
  intros Hs [= H1 H2]. rewrite (Nat.div_mod_eq p side), (Nat.div_mod_eq t side). lia.
Qed.

(** One iteration of the loop of [_build_bitmap] on a square table. *)
Lemma build_step_spec side max_value freqs0 done key st :
  (0 < side)%nat -> (length done < side * side)%nat ->
  key ∉ done -> is_Some (freqs0 !! key) ->
  build_inv side max_value freqs0 done st ->
  exists st', build_step side true max_value st key = Ok st' /\
              build_inv side max_value freqs0 (done ++ [key]) st'.
Proof.
  intros Hside Hlen Hfresh [v0 Hv0] [Hi Hjle Hj Hrows Hcols Hcells Hfreqs].
  set (t := length done) in *.
  assert (Hti : (t / side < side)%nat) by (apply Nat.Div0.div_lt_upper_bound; lia).
  assert (Htj : (t mod side < side)%nat) by (apply Nat.mod_upper_bound; lia).
  unfold build_step.
  assert (Hread : bs_freqs st !! key = freqs0 !! key).
  { rewrite Hfreqs. destruct (decide (key ∈ done)); [contradiction | reflexivity]. }
  rewrite Hread. fold (normalize max_value (default 0%Q (freqs0 !! key))).
  set (v := normalize max_value (default 0%Q (freqs0 !! key))).
  rewrite Hi, Hj.
  destruct (setitem_spec (bs_bitmap st) side (t / side) (t mod side) v Hrows Hcols Hti Htj)
    as (b' & Hset & Hrows' & Hcols' & Hget & Hother).
  rewrite Hset. simpl. eexists. split; [reflexivity|].
  assert (Hlen' : length (done ++ [key]) = S t) by (rewrite length_app; simpl; lia).
  assert (Hnext : (S t / side = if (S (t mod side) =? side)%nat then S (t / side) else t / side)%nat
                  /\ (S (t mod side) mod side = S t mod side)%nat).
  { pose proof (Nat.div_mod_eq t side) as Ht.
    destruct (Nat.eqb_spec (S (t mod side)) side) as [E|E].
    - rewrite E, Nat.Div0.mod_same. split.
      + symmetry. apply (Nat.div_unique (S t) side (S (t / side)) 0); nia.
      + apply (Nat.mod_unique (S t) side (S (t / side)) 0); nia.
    - rewrite (Nat.mod_small (S (t mod side)) side) by lia. split.
      + symmetry. apply (Nat.div_unique (S t) side (t / side) (S (t mod side))); nia.
      + apply (Nat.mod_unique (S t) side (t / side) (S (t mod side))); nia. }
  destruct Hnext as [Hdiv Hmod].
  split; simpl; rewrite ?Hlen'.
  - rewrite Hdiv. reflexivity.
  - lia.
  - exact Hmod.
  - exact Hrows'.
  - exact Hcols'.
  - intros p key' Hp. apply lookup_app_Some in Hp as [Hp|[Hge Hp]].
    + rewrite Hother; [apply Hcells, Hp|].
      intros Heq. apply div_mod_pair in Heq; [|lia].
      apply lookup_lt_Some in Hp. lia.
    + fold t in Hp, Hge. destruct (p - t)%nat as [|k] eqn:Hk; simpl in Hp; [|destruct k; discriminate].
      injection Hp as <-. replace p with t by lia. exact Hget.
  - intros key'. destruct (decide (key' = key)) as [->|Hne].
    + rewrite lookup_insert_eq.
      destruct (decide (key ∈ done ++ [key])) as [_|Hn]; [|exfalso; apply Hn; set_solver].
      subst v. rewrite Hv0. reflexivity.
    + rewrite lookup_insert_ne by congruence. rewrite Hfreqs.
      destruct (decide (key' ∈ done)) as [H1|H1],
               (decide (key' ∈ done ++ [key])) as [H2|H2]; try reflexivity; exfalso.
      * apply H2, elem_of_app. left. exact H1.
      * apply elem_of_app in H2 as [H2|H2]; [contradiction|].
        apply list_elem_of_singleton in H2. congruence.
Qed.

Lemma build_loop_spec side max_value freqs0 : forall todo done st,
  (0 < side)%nat -> NoDup (done ++ todo) ->
  (length (done ++ todo) <= side * side)%nat ->
  Forall (fun key => is_Some (freqs0 !! key)) todo ->
  build_inv side max_value freqs0 done st ->
  exists st', build_loop side true max_value st todo = Ok st' /\
              build_inv side max_value freqs0 (done ++ todo) st'.
Proof.
  induction todo as [|key todo IH]; intros done st Hside Hnd Hlen Hdom Hinv; simpl.
  - exists st. rewrite app_nil_r. auto.
  - rewrite length_app in Hlen. simpl in Hlen.
    apply NoDup_app in Hnd as (Hnd1 & Hnd2 & Hnd3).
    inversion Hdom as [|? ? Hkey Hdom']; subst.
    destruct (build_step_spec side max_value freqs0 done key st) as (st1 & Hstep & Hinv1);
      [assumption | lia | | assumption | assumption |].
    { intros Hin. apply (Hnd2 key Hin). left. }
    rewrite Hstep. simpl.
    replace (done ++ key :: todo) with ((done ++ [key]) ++ todo)
      by (rewrite <- app_assoc; reflexivity).
    apply IH; try assumption.
    + rewrite <- app_assoc. simpl. apply NoDup_app. auto.
    + rewrite !length_app. simpl. lia.
Qed.

Lemma build_inv_init side max_value freqs0 :
  build_inv side max_value freqs0 []
    {| bs_freqs := freqs0; bs_bitmap := np_zeros side side; bs_i := 0; bs_j := 0 |}.
Proof.
  destruct (np_zeros_shape side side) as [Hr Hc].
  split; simpl; try assumption; try lia.
  - rewrite Nat.Div0.div_0_l. reflexivity.
  - intros p key Hp. discriminate.
  - intros key. destruct (decide (key ∈ [])) as [Hin|_]; [inversion Hin | reflexivity].
Qed.

Lemma sorted_keys_perm (freqs : gmap string Q) :
  sorted_keys freqs ≡ₚ elements (dom freqs).
Proof. apply merge_sort_Permutation. Qed.

Lemma sorted_keys_sorted (freqs : gmap string Q) :
  StronglySorted String.le (sorted_keys freqs).
Proof. apply StronglySorted_merge_sort; apply _. Qed.

Lemma sorted_keys_length (freqs : gmap string Q) :
  length (sorted_keys freqs) = size freqs.
Proof. rewrite sorted_keys_perm, <- size_dom. reflexivity. Qed.

Lemma sorted_keys_elem (freqs : gmap string Q) key :
  key ∈ sorted_keys freqs <-> is_Some (freqs !! key).
Proof. rewrite sorted_keys_perm, elem_of_elements, elem_of_dom. reflexivity. Qed.

Lemma sorted_keys_NoDup (freqs : gmap string Q) : NoDup (sorted_keys freqs).
Proof. rewrite sorted_keys_perm. apply NoDup_elements. Qed.

Lemma elem_of_values (freqs : gmap string Q) v :
  v ∈ snd <$> map_to_list freqs <-> exists key, freqs !! key = Some v.
Proof.
  rewrite list_elem_of_fmap. split.
  - intros ([key v'] & -> & H). apply elem_of_map_to_list in H. eauto.
  - intros [key H]. exists (key, v). split; [reflexivity | apply elem_of_map_to_list, H].
Qed.

(** [_build_bitmap] on a non-empty table whose size is the square of
    [side]. *)
Lemma _build_bitmap_run (freqs : gmap string Q) side :
  freqs <> ∅ -> size freqs = (side * side)%nat ->
  exists max_value st,
    py_max (snd <$> map_to_list freqs) = Ok max_value /\
    build_inv side max_value freqs (sorted_keys freqs) st /\
    _build_bitmap freqs = Ok (bs_freqs st, bs_bitmap st).
Proof.
  intros Hne Hsize.
  assert (Hside : (0 < side)%nat).
  { apply map_size_non_empty_iff in Hne. destruct side; [simpl in Hsize; congruence | lia]. }
  destruct (py_max_ok (snd <$> map_to_list freqs)) as [max_value Hmax].
  { intros H. apply fmap_nil_inv in H. apply map_to_list_empty_iff in H. contradiction. }
  destruct (build_loop_spec side max_value freqs (sorted_keys freqs) []
              {| bs_freqs := freqs; bs_bitmap := np_zeros side side; bs_i := 0; bs_j := 0 |})
    as (st & Hloop & Hinv).
  - exact Hside.
  - apply sorted_keys_NoDup.
  - simpl. rewrite sorted_keys_length. lia.
  - apply Forall_forall. intros key. apply sorted_keys_elem.
  - apply build_inv_init.
  - exists max_value, st. split; [exact Hmax|]. split; [exact Hinv|].
    unfold _build_bitmap. rewrite Hsize, Nat.sqrt_square, Nat.eqb_refl, Hmax. simpl.
    rewrite Hloop. reflexivity.
Qed.

(** C4 (amended): on a non-empty table of non-negative counts whose
    size is a perfect square, [_build_bitmap] divides every entry by the
    maximum (all become 0 when the maximum is 0), so that every cell is
    in [0, 1], and lays the entries out row by row, in the order of the
    lexicographically sorted keys, in a square matrix of side
    sqrt(len(table)). *)
Theorem build_bitmap_square (freqs : gmap string Q) (side : nat) :
  freqs <> ∅ -> size freqs = (side * side)%nat ->
  (forall key v, freqs !! key = Some v -> (0 <= v)%Q) ->
  exists max_value freqs' bm,
    py_max (snd <$> map_to_list freqs) = Ok max_value /\
    (forall key v, freqs !! key = Some v -> (v <= max_value)%Q) /\
    _build_bitmap freqs = Ok (freqs', bm) /\
    freqs' = normalize max_value <$> freqs /\
    length bm = side /\ Forall (fun row => length row = side) bm /\
    StronglySorted String.le (sorted_keys freqs) /\
    sorted_keys freqs ≡ₚ elements (dom freqs) /\
    forall i j, (i < side)%nat -> (j < side)%nat ->
      exists key v c,
        sorted_keys freqs !! (i * side + j)%nat = Some key /\
        freqs !! key = Some v /\
        c = normalize max_value v /\
        getitem bm i j = Some c /\ (0 <= c)%Q /\ (c <= 1)%Q.
Proof.
  intros Hne Hsize Hpos.
  destruct (_build_bitmap_run freqs side Hne Hsize) as (max_value & st & Hmax & Hinv & Hrun).
  destruct Hinv as [Hi Hjle Hj Hrows Hcols Hcells Hfreqs].
  apply py_max_spec in Hmax as Hspec. destruct Hspec as [_ Hle].
  assert (Hbound : forall key v, freqs !! key = Some v -> (v <= max_value)%Q).
  { intros key v Hv. eapply (proj1 (Forall_forall _ _) Hle). apply elem_of_values. eauto. }
  exists max_value, (bs_freqs st), (bs_bitmap st).
  split; [exact Hmax|]. split; [exact Hbound|]. split; [exact Hrun|].
  split; [|split; [exact Hrows|split; [exact Hcols|split;
            [apply sorted_keys_sorted|split; [apply sorted_keys_perm|]]]]].
  - apply map_eq. intros key. rewrite Hfreqs, lookup_fmap.
    destruct (decide (key ∈ sorted_keys freqs)) as [_|Hn]; [reflexivity|].
    destruct (freqs !! key) eqn:E; [|reflexivity].
    exfalso. apply Hn, sorted_keys_elem. rewrite E. eauto.
  - intros i j Hi' Hj'.
    assert (Hp : (i * side + j < length (sorted_keys freqs))%nat)
      by (rewrite sorted_keys_length, Hsize; nia).
    apply lookup_lt_is_Some in Hp as [key Hkey].
    assert (Hin : is_Some (freqs !! key)).
    { apply sorted_keys_elem. eapply list_elem_of_lookup_2, Hkey. }
    destruct Hin as [v Hv].
    exists key, v, (normalize max_value v).
    split; [exact Hkey|]. split; [exact Hv|]. split; [reflexivity|].
    pose proof (Hcells _ _ Hkey) as Hcell. rewrite Hv in Hcell. simpl in Hcell.
    rewrite Nat.div_add_l, Nat.div_small, Nat.add_0_r in Hcell by lia.
    rewrite Nat.add_comm, Nat.Div0.mod_add, Nat.mod_small in Hcell by lia.
    split; [exact Hcell|].
    apply normalize_range; [eapply Hpos, Hv | eapply Hbound, Hv].
Qed.

Lemma build_bitmap_square_witness :
  exists r, _build_bitmap (_count_frequencies ["aaaa"; "abab"] "ab" 2) = Ok r /\
            length (snd r) = 2%nat.
Proof.
  destruct (build_bitmap_square (_count_frequencies ["aaaa"; "abab"] "ab" 2) 2)
    as (mx & freqs' & bm & _ & _ & Hrun & _ & Hlen & _).
  - intros H. apply (f_equal (fun m : gmap string Q => m !! "aa")) in H.
    vm_compute in H. discriminate H.
  - vm_compute. reflexivity.
  - apply _count_frequencies_nonneg.
  - exists (freqs', bm). split; [exact Hrun | exact Hlen].
Defined.

(** C4, counterexample: the empty table has a size that is a perfect
    square (0), yet no bitmap is built for it: [max] of its values
    raises. *)
Lemma build_bitmap_empty_table :
  size (∅ : gmap string Q) = (0 * 0)%nat /\
  _build_bitmap ∅ = Raise ValueError.
Proof. split; vm_compute; reflexivity. Qed.

(** ** Construction and the shape of the bitmaps *)

Lemma alphabet_size_abcd : alphabet_size "abcd" = 4%nat.
Proof. vm_compute. reflexivity. Qed.

(** Over ['abcd'] the table has [4 ^ max(recursion_level, 1)] keys, the
    square of [2 ^ max(recursion_level, 1)]. *)
Lemma _count_frequencies_size words r :
  size (_count_frequencies words "abcd" r)
  = (2 ^ Z.to_nat (Z.max r 1) * 2 ^ Z.to_nat (Z.max r 1))%nat.
Proof.
  rewrite <- size_dom, _count_frequencies_dom.
  destruct (_build_combinations_spec "abcd" r) as [_ Hsize].
  rewrite Hsize, alphabet_size_abcd. change 4%nat with (2 * 2)%nat.
  apply Nat.pow_mul_l.
Qed.

Lemma _build_bitmap_counts words r :
  exists res, _build_bitmap (_count_frequencies words "abcd" r) = Ok res /\
    length (snd res) = (2 ^ Z.to_nat (Z.max r 1))%nat /\
    Forall (fun row => length row = (2 ^ Z.to_nat (Z.max r 1))%nat) (snd res).
Proof.
  pose proof (_count_frequencies_size words r) as Hsize.
  destruct (_build_bitmap_run (_count_frequencies words "abcd" r)
              (2 ^ Z.to_nat (Z.max r 1))%nat) as (mx & st & _ & Hinv & Hrun);
    [|exact Hsize|].
  - apply map_size_non_empty_iff. rewrite Hsize.
    pose proof (Nat.pow_nonzero 2 (Z.to_nat (Z.max r 1)) ltac:(lia)). nia.
  - exists (bs_freqs st, bs_bitmap st). split; [exact Hrun|]. simpl.
    split; [apply Hinv | apply Hinv].
Qed.

Lemma __init___ok w wf lf lgf r :
  0 <= lf * (wf * w) -> 0 <= lgf * (wf * w) ->
  exists d, __init__ w wf lf lgf r = Ok d /\
    _window_size d = wf * w /\ _word_size d = w /\ _recursion_level d = r /\
    _lead_window_size d = lf * (wf * w) /\ _lag_window_size d = lgf * (wf * w).
Proof.
  intros H1 H2. unfold __init__, deque_new.
  destruct (Z.ltb_spec (lf * (wf * w)) 0); [lia|].
  destruct (Z.ltb_spec (lgf * (wf * w)) 0); [lia|].
  simpl. eexists. split; [reflexivity|]. simpl. auto.
Qed.





(** ** Results of [detect] *)

Lemma ingest_configured w wf lf lgf r d x d' :
  configured w wf lf lgf r d -> ingest d x = Ok d' -> configured w wf lf lgf r d'.
Proof.
  intros [H1 H2 H3 H4 H5]. unfold ingest.
  destruct (len (_lead_window d) =? _lead_window_size d).
  - destruct (popleft (_lead_window d)); simpl; [|discriminate].
    intros [= <-]. split; assumption.
  - simpl. intros [= <-]. split; assumption.
Qed.



Section Results.

Variable sqrt_fn : Q -> Q.
Variable ppf : Q -> Q.
Hypothesis sqrt_fn_proper : forall u v, (u == v)%Q -> (sqrt_fn u == sqrt_fn v)%Q.





Section Loop.

Variables w wf lf lgf r : Z.
Hypothesis Hw : 1 <= w.
Hypothesis Hwf : 1 <= wf.
Hypothesis Hlf : 1 <= lf.
Hypothesis Hlgf : 0 <= lgf.

Let llead := lf * (wf * w).
Let llag := lgf * (wf * w).


End Loop.

Lemma set_last_timestamp_configured w wf lf lgf r d t :
  configured w wf lf lgf r d -> configured w wf lf lgf r (set_last_timestamp d t).
Proof. intros [H1 H2 H3 H4 H5]. split; assumption. Qed.

Lemma set_last_timestamp_windows llead llag hist d t :
  windows_of llead llag hist d -> windows_of llead llag hist (set_last_timestamp d t).
Proof. intros [H1 H2 H3 H4 H5 H6 H7 H8]. split; assumption. Qed.

Lemma ingest_all_configured w wf lf lgf r d xs d' :
  configured w wf lf lgf r d -> ingest_all d xs = Ok d' -> configured w wf lf lgf r d'.
Proof.
  revert d. induction xs as [|x xs IH]; intros d Hcf; simpl.
  - intros [= <-]. exact Hcf.
  - destruct (ingest d x) as [d1|] eqn:Hd1; simpl; [|discriminate].
    apply IH. eapply ingest_configured; eassumption.
Qed.


End Results.




(** * Further properties *)

(** ** Exceptions of [detect] *)

Lemma lastn_zero {A} (l : list A) : lastn 0 l = [].
Proof. unfold lastn. simpl Z.to_nat. rewrite Nat.sub_0_r. apply drop_all. Qed.

Lemma ingest_ok_lead_positive llead llag hist d x d' :
  windows_of llead llag hist d -> ingest d x = Ok d' -> 0 < llead.
Proof.
  intros [Hls Hgs Hlm Hgm Hl0 Hg0 Hl Hg] Hi.
  destruct (Z.eq_dec llead 0) as [H0|]; [|lia]. exfalso.
  rewrite H0, lastn_zero in Hl.
  unfold ingest, len, popleft in Hi. rewrite Hls, Hl, H0 in Hi. discriminate.
Qed.

Lemma ingest_raise d x e : ingest d x = Raise e -> e = IndexError.
Proof.
  unfold ingest. destruct (len (_lead_window d) =? _lead_window_size d); [|discriminate].
  unfold popleft. destruct (items (_lead_window d)); simpl; [|discriminate].
  intros [= <-]. reflexivity.
Qed.

Lemma ingest_all_ok_lead_positive llead llag hist d xs d' :
  windows_of llead llag hist d -> xs <> [] -> ingest_all d xs = Ok d' -> 0 < llead.
Proof.
  intros Hw Hne. destruct xs as [|x xs]; [congruence|]. simpl.
  destruct (ingest d x) as [d1|] eqn:Hi; simpl; [|discriminate].
  intros _. eapply ingest_ok_lead_positive; eassumption.
Qed.

Section ErrorKinds.

Variable sqrt_fn : Q -> Q.
Variable ppf : Q -> Q.

Lemma sax_raise_kinds data w e :
  _sax sqrt_fn ppf data 4 w = Raise e ->
  e = IndexError \/ (e = ValueError /\ w <= 0).
Proof.
  unfold _sax. destruct (sax_breakpoints_ok ppf 4 ltac:(lia)) as (pts & -> & _).
  cbn [bind]. unfold array_split. destruct (Z.leb_spec w 0) as [Hw|Hw].
  - intros [= <-]. auto.
  - cbn [bind].
    match goal with |- context [mapM (locate ?b) ?l] =>
      destruct (mapM (locate b) l) as [locs|e1] eqn:Hlocs end; cbn [bind].
    + destruct (mapM (getitem_string ascii_letters) locs) as [letters|e2] eqn:Hl;
        cbn [bind]; [discriminate|].
      intros [= <-]. apply mapM_raise in Hl as (j & _ & Hj).
      unfold getitem_string in Hj. destruct (String.get j ascii_letters); [discriminate|].
      injection Hj as <-. auto.
    + intros [= <-]. apply mapM_raise in Hlocs as (m & _ & Hm).
      apply first_index_raise in Hm. auto.
Qed.

Lemma _get_words_raise_kinds window fs w e :
  fs <> 0 -> Z.of_nat (length window) mod fs = 0 ->
  _get_words sqrt_fn ppf window fs w = Raise e ->
  e = IndexError \/ (e = ValueError /\ w <= 0).
Proof.
  intros Hfs Hmod. unfold _get_words.
  destruct (Z.eqb_spec fs 0); [contradiction|]. rewrite Hmod. simpl.
  intros H. apply mapM_raise in H as (i & _ & Hi).
  eapply sax_raise_kinds, Hi.
Qed.

Lemma analyse_raise_kinds w wf lf lgf r hist d e :
  configured w wf lf lgf r d ->
  windows_of (lf * (wf * w)) (lgf * (wf * w)) hist d ->
  0 < lf * (wf * w) ->
  windows_full d = true ->
  analyse sqrt_fn ppf d = Raise e ->
  e = IndexError \/ (e = ValueError /\ w <= 0).
Proof.
  intros [C1 C2 C3 C4 C5] Hwo Hpos Hfull.
  assert (Hws : wf * w <> 0) by (intros H0; rewrite H0, Z.mul_0_r in Hpos; lia).
  unfold windows_full in Hfull. apply andb_true_iff in Hfull as [Hf1 Hf2].
  apply Z.eqb_eq in Hf1, Hf2. unfold len in Hf1, Hf2. rewrite C4 in Hf1. rewrite C5 in Hf2.
  unfold analyse. rewrite C1, C2, C3.
  destruct (_get_words sqrt_fn ppf (items (_lead_window d)) (wf * w) w) as [lead_words|e1] eqn:H1;
    cbn [bind].
  - destruct (_get_words sqrt_fn ppf (items (_lag_window d)) (wf * w) w) as [lag_words|e2] eqn:H2;
      cbn [bind].
    + destruct (_build_bitmap_counts lead_words r) as (lead & -> & _).
      destruct (_build_bitmap_counts lag_words r) as (lag & -> & _).
      discriminate.
    + intros [= <-]. eapply _get_words_raise_kinds; [exact Hws | | exact H2].
      rewrite Hf2. apply Z.mod_mul. exact Hws.
  - intros [= <-]. eapply _get_words_raise_kinds; [exact Hws | | exact H1].
    rewrite Hf1. apply Z.mod_mul. exact Hws.
Qed.

(** X1: a detector that was constructed and fed through [detect] never
    raises the alignment exception of [_get_words], nor a
    [ZeroDivisionError]: the only exceptions of [detect] are
    [IndexError] and, when [word_size <= 0], the [ValueError] of
    [np.array_split]. *)
Theorem detect_error_kinds (w wf lf lgf r : Z) (hist : list Q) (d : detector)
    (xs : list Q) (ts : datetime) (e : exn) :
  configured w wf lf lgf r d ->
  windows_of (lf * (wf * w)) (lgf * (wf * w)) hist d ->
  snd (detect sqrt_fn ppf d xs ts) = Raise e ->
  e = IndexError \/ (e = ValueError /\ w <= 0).
Proof.
  intros Hcf Hwo He. unfold detect in He.
  pose proof (set_last_timestamp_configured _ _ _ _ _ _ ts Hcf) as Hcf1.
  pose proof (set_last_timestamp_windows _ _ _ _ ts Hwo) as Hwo1.
  destruct (detect_loop_prefix sqrt_fn ppf xs (set_last_timestamp d ts) [])
    as (done & rest & Hsplit & Hing & _ & Herr).
  destruct (Herr e He) as [(x & rest' & _ & Hx)|(Hne & Hfull & Ha)].
  - left. eapply ingest_raise, Hx.
  - eapply analyse_raise_kinds; [| | | exact Hfull | exact Ha].
    + eapply ingest_all_configured; eassumption.
    + eapply ingest_all_windows; eassumption.
    + eapply ingest_all_ok_lead_positive; eassumption.
Qed.

End ErrorKinds.

Lemma configured_example : configured 2 2 1 1 2 example_detector.
Proof. split; reflexivity. Qed.

Lemma windows_of_example : windows_of (1 * (2 * 2)) (1 * (2 * 2)) [] example_detector.
Proof. apply (__init___windows 2 2 1 1 2). reflexivity. Qed.

Lemma detect_error_kinds_witness :
  snd (detect sqrt_approx ppf_table example_detector [1; 2; 3; 4; 5; 5; 5; 5]%Q 1)
  = Raise IndexError /\
  (IndexError = IndexError \/ (IndexError = ValueError /\ 2 <= 0)).
Proof.
  assert (H : snd (detect sqrt_approx ppf_table example_detector
                     [1; 2; 3; 4; 5; 5; 5; 5]%Q 1) = Raise IndexError)
    by (vm_compute; reflexivity).
  split; [exact H|].
  exact (detect_error_kinds sqrt_approx ppf_table 2 2 1 1 2 [] example_detector
           [1; 2; 3; 4; 5; 5; 5; 5]%Q 1 IndexError
           configured_example windows_of_example H).
Defined.

Section Batches.

Variable sqrt_fn : Q -> Q.
Variable ppf : Q -> Q.

(** X2: a detector constructed with a lead capacity of 0 (a zero
    [word_size], [window_factor] or [lead_window_factor]) cannot take a
    single datapoint: [detect] on a non-empty batch raises the
    [IndexError] of [popleft] on the empty lead window, having changed
    nothing but the timestamp. *)
Theorem detect_zero_lead_capacity (w wf lf lgf r : Z) (d0 : detector)
    (x : Q) (xs : list Q) (ts : datetime) :
  __init__ w wf lf lgf r = Ok d0 ->
  lf * (wf * w) = 0 ->
  detect sqrt_fn ppf d0 (x :: xs) ts = (set_last_timestamp d0 ts, Raise IndexError).
Proof.
  intros Hinit H0. pose proof (__init___windows _ _ _ _ _ _ Hinit) as Hwo.
  rewrite H0 in Hwo. destruct Hwo as [Hls _ _ _ _ _ Hl _].
  unfold detect. cbn [detect_loop]. unfold ingest, len, popleft. simpl.
  rewrite Hls, Hl. reflexivity.
Qed.

Lemma detect_loop_acc xs : forall d acc,
  detect_loop sqrt_fn ppf d acc xs =
  (fst (detect_loop sqrt_fn ppf d [] xs),
   match snd (detect_loop sqrt_fn ppf d [] xs) with
   | Ok results => Ok (acc ++ results)
   | Raise e => Raise e
   end).
Proof.
  induction xs as [|x xs IH]; intros d acc; cbn [detect_loop].
  - simpl. rewrite app_nil_r. reflexivity.
  - destruct (ingest d x) as [d1|e]; [|reflexivity].
    destruct (windows_full d1); [|apply IH].
    destruct (analyse sqrt_fn ppf d1) as [a|e]; [|reflexivity].
    rewrite (IH d1 (acc ++ [a])), (IH d1 ([] ++ [a])).
    destruct (snd (detect_loop sqrt_fn ppf d1 [] xs)); simpl; [|reflexivity].
    rewrite <- app_assoc. reflexivity.
Qed.

Lemma detect_loop_app xs ys : forall d acc,
  detect_loop sqrt_fn ppf d acc (xs ++ ys) =
  match detect_loop sqrt_fn ppf d acc xs with
  | (d', Ok acc') => detect_loop sqrt_fn ppf d' acc' ys
  | (d', Raise e) => (d', Raise e)
  end.
Proof.
  induction xs as [|x xs IH]; intros d acc; cbn [detect_loop app]; [reflexivity|].
  destruct (ingest d x) as [d1|e]; [|reflexivity].
  destruct (windows_full d1); [|apply IH].
  destruct (analyse sqrt_fn ppf d1) as [a|e]; [apply IH | reflexivity].
Qed.

Lemma set_last_timestamp_same d :
  set_last_timestamp d (last_timestamp d) = d.
Proof. destruct d. reflexivity. Qed.

(** X3: cutting a batch in two does not change anything: when the call
    on the first part returns, a call on the second part with the same
    timestamp leaves the detector that one call on the whole batch
    leaves, and returns the remaining results (or raises the same
    exception). *)
Theorem detect_batch_split (d d1 : detector) (xs ys : list Q) (ts : datetime)
    (results1 : list Analysis) :
  detect sqrt_fn ppf d xs ts = (d1, Ok results1) ->
  detect sqrt_fn ppf d (xs ++ ys) ts =
  (fst (detect sqrt_fn ppf d1 ys ts),
   match snd (detect sqrt_fn ppf d1 ys ts) with
   | Ok results2 => Ok (results1 ++ results2)
   | Raise e => Raise e
   end).
Proof.
  unfold detect. intros H1. rewrite detect_loop_app, H1.
  assert (Hts : last_timestamp d1 = ts).
  { destruct (detect_loop_prefix sqrt_fn ppf xs (set_last_timestamp d ts) [])
      as (done & rest & _ & Hing & _). rewrite H1 in Hing. simpl in Hing.
    apply ingest_all_last_timestamp in Hing. exact Hing. }
  replace (set_last_timestamp d1 ts) with d1
    by (rewrite <- Hts; symmetry; apply set_last_timestamp_same).
  apply detect_loop_acc.
Qed.

End Batches.

Lemma detect_zero_lead_capacity_witness :
  exists d0, __init__ 2 2 0 1 2 = Ok d0 /\
    detect sqrt_approx ppf_table d0 [1; 2]%Q 3
    = (set_last_timestamp d0 3, Raise IndexError).
Proof.
  eexists. split; [reflexivity|].
  apply (detect_zero_lead_capacity sqrt_approx ppf_table 2 2 0 1 2); reflexivity.
Defined.

Lemma detect_batch_split_witness :
  exists d1 results1,
    detect sqrt_approx ppf_table example_detector [1; 2; 3; 4; 5; 6; 7; 8]%Q 5
    = (d1, Ok results1) /\
    length results1 = 1%nat /\
    detect sqrt_approx ppf_table example_detector
      ([1; 2; 3; 4; 5; 6; 7; 8] ++ [9; 1])%Q 5
    = (fst (detect sqrt_approx ppf_table d1 [9; 1]%Q 5),
       match snd (detect sqrt_approx ppf_table d1 [9; 1]%Q 5) with
       | Ok results2 => Ok (results1 ++ results2)
       | Raise e => Raise e
       end).
Proof.
  destruct (detect sqrt_approx ppf_table example_detector [1; 2; 3; 4; 5; 6; 7; 8]%Q 5)
    as [d1 [results1|e]] eqn:H1.
  - exists d1, results1. split; [reflexivity|]. split.
    + apply (f_equal snd) in H1. vm_compute in H1. injection H1 as <-. reflexivity.
    + apply (detect_batch_split sqrt_approx ppf_table example_detector d1
               [1; 2; 3; 4; 5; 6; 7; 8]%Q [9; 1]%Q 5 results1 H1).
  - exfalso. apply (f_equal snd) in H1. vm_compute in H1. discriminate H1.
Defined.

(** ** Subword counts *)

Lemma occurrences_le needle stack :
  (occurrences needle stack <= S (String.length stack))%nat.
Proof.
  induction stack as [|c s IH]; cbn [occurrences String.length].
  - destruct (String.prefix needle EmptyString); lia.
  - destruct (String.prefix needle (String c s)); lia.
Qed.

Lemma occurrences_bound needle stack :
  (occurrences needle stack + String.length needle <= S (String.length stack))%nat
  \/ occurrences needle stack = 0%nat.
Proof.
  induction stack as [|c s IH]; cbn [occurrences String.length].
  - destruct (String.prefix needle EmptyString) eqn:E; [|auto].
    left. destruct needle; [simpl; lia | discriminate].
  - destruct (le_lt_dec (String.length needle) (S (String.length s))) as [Hle|Hgt].
    + destruct IH as [IH|IH].
      * left. destruct (String.prefix needle (String c s)); lia.
      * rewrite IH. destruct (String.prefix needle (String c s)); [left; lia | auto].
    + right. rewrite (prefix_too_long needle (String c s)) by (simpl; lia).
      rewrite occurrences_too_long by lia. reflexivity.
Qed.

Lemma occurrences_empty_needle stack :
  occurrences EmptyString stack = S (String.length stack).
Proof.
  induction stack as [|c s IH]; cbn [occurrences String.length]; [reflexivity|].
  rewrite IH. destruct (String c s); reflexivity.
Qed.

(** X4: [_count_substr] returns a number between 0 and
    [len(stack) - len(needle) + 1]; it is 0 when the needle is longer
    than the stack, 1 for a non-empty stack searched for itself, and
    [len(stack) + 1] for the empty needle. *)
Theorem count_substr_bounds (stack needle : string) :
  0 <= _count_substr stack needle /\
  _count_substr stack needle
    <= Z.max 0 (Z.of_nat (String.length stack) - Z.of_nat (String.length needle) + 1) /\
  ((String.length stack < String.length needle)%nat -> _count_substr stack needle = 0) /\
  _count_substr stack EmptyString = Z.of_nat (String.length stack) + 1 /\
  (stack <> EmptyString -> _count_substr stack stack = 1).
Proof.
  rewrite !_count_substr_occurrences.
  split; [lia|]. split; [|split; [|split]].
  - destruct (occurrences_bound needle stack) as [H|H]; lia.
  - intros H. rewrite occurrences_too_long by exact H. reflexivity.
  - rewrite occurrences_empty_needle. lia.
  - intros Hne. destruct stack as [|c s]; [congruence|].
    cbn [occurrences].
    assert (String.prefix (String c s) (String c s) = true) as ->.
    { apply prefix_correct. clear. induction (String c s) as [|a t IH]; simpl; [reflexivity|].
      rewrite IH. reflexivity. }
    rewrite occurrences_too_long by (simpl; lia). reflexivity.
Qed.

Lemma count_substr_bounds_witness :
  _count_substr "ab" "abc" = 0 /\ _count_substr "abab" "abab" = 1.
Proof.
  destruct (count_substr_bounds "ab" "abc") as (_ & _ & H & _).
  destruct (count_substr_bounds "abab" "abab") as (_ & _ & _ & _ & H').
  split; [apply H; simpl; lia | apply H'; discriminate].
Defined.

(** ** Combinations of any length *)

(** X5: [_build_combinations(alphabet, set(), n)] returns exactly the
    words of length [max(n, 1)] over the alphabet, [k ^ max(n, 1)] of
    them for an alphabet of [k] distinct symbols: a length [n <= 1]
    gives the one-letter words, and an alphabet without symbols gives
    the empty set. *)
Theorem build_combinations_words (alphabet : string) (n : Z) :
  let combinations := _build_combinations alphabet ∅ n in
  (forall s, s ∈ combinations <->
             String.length s = Z.to_nat (Z.max n 1) /\ over alphabet s) /\
  size combinations = (alphabet_size alphabet ^ Z.to_nat (Z.max n 1))%nat /\
  (n <= 1 -> combinations = list_to_set (chars alphabet)) /\
  (alphabet = EmptyString -> combinations = ∅).
Proof.
  intros combinations. subst combinations.
  destruct (_build_combinations_spec alphabet n) as [Hall Hsize].
  split; [exact Hall|]. split; [exact Hsize|]. split.
  - intros Hn. apply set_eq. intros s.
    pose proof (all_words_seed alphabet s) as Hseed.
    pose proof (Hall s) as Hs.
    replace (Z.to_nat (Z.max n 1)) with 1%nat in Hs by lia.
    rewrite Hs, Hseed. reflexivity.
  - intros ->. apply leibniz_equiv, size_empty_inv. rewrite Hsize.
    replace (alphabet_size EmptyString) with 0%nat by reflexivity.
    destruct (Z.to_nat (Z.max n 1)) eqn:E; [lia | reflexivity].
Qed.

Lemma build_combinations_words_witness :
  _build_combinations "ab" ∅ (-3) = list_to_set (chars "ab") /\
  _build_combinations EmptyString ∅ 2 = ∅.
Proof.
  destruct (build_combinations_words "ab" (-3)) as (_ & _ & H & _).
  destruct (build_combinations_words EmptyString 2) as (_ & _ & _ & H').
  split; [apply H; lia | apply H'; reflexivity].
Defined.

(** ** Tables of several word lists *)

Lemma count_all_app key words1 words2 v :
  count_all key (words1 ++ words2) v = count_all key words2 (count_all key words1 v).
Proof. unfold count_all. apply fold_left_app. Qed.

(** X6: the table of a concatenation of two word lists is the
    entry-wise sum of their tables, the table of no words is all zero,
    and reordering the words does not change any count. *)
Theorem count_frequencies_additive (words1 words2 : list string) (alphabet : string)
    (n : Z) (key : string) (v1 v2 : Q) :
  _count_frequencies words1 alphabet n !! key = Some v1 ->
  _count_frequencies words2 alphabet n !! key = Some v2 ->
  (exists v, _count_frequencies (words1 ++ words2) alphabet n !! key = Some v /\
             (v == v1 + v2)%Q) /\
  _count_frequencies [] alphabet n !! key = Some 0%Q /\
  (words1 ≡ₚ words2 -> (v1 == v2)%Q).
Proof.
  rewrite !_count_frequencies_lookup.
  destruct (decide (key ∈ _build_combinations alphabet ∅ n)) as [Hin|Hin]; [|discriminate].
  intros [= <-] [= <-]. split; [|split].
  - eexists. split; [reflexivity|]. rewrite count_all_app, !count_all_sum. ring.
  - reflexivity.
  - intros Hperm. rewrite !count_all_sum. rewrite Hperm. reflexivity.
Qed.

Lemma count_frequencies_additive_witness :
  exists v, _count_frequencies (["aaaa"] ++ ["abab"]) "ab" 2 !! "aa" = Some v /\
            (v == 3 + 0)%Q.
Proof.
  destruct (count_frequencies_additive ["aaaa"] ["abab"] "ab" 2 "aa" (0 + 3)%Q (0 + 0)%Q)
    as [(v & Hv & Hsum) _]; [reflexivity | reflexivity |].
  exists v. split; [exact Hv|]. rewrite Hsum. reflexivity.
Defined.

(** ** Words returned by [_sax] *)

Lemma mapM_some_raise {A B} (f : A -> result B) l a e0 :
  a ∈ l -> f a = Raise e0 -> (forall a' e, f a' = Raise e -> e = e0) ->
  mapM f l = Raise e0.
Proof.
  intros Ha Hf Hkind. destruct (mapM f l) as [bs|e] eqn:Hm.
  - apply mapM_inv in Hm. apply list_elem_of_lookup in Ha as [i Hi].
    destruct (Forall2_lookup_l _ _ _ _ _ Hm Hi) as (b & _ & Hb). congruence.
  - apply mapM_raise in Hm as (a' & _ & Ha'). f_equal. eapply Hkind, Ha'.
Qed.

Lemma mjoin_short_has_empty {A} (ls : list (list A)) :
  (length (mjoin ls) < length ls)%nat -> [] ∈ ls.
Proof.
  induction ls as [|l ls IH]; [simpl; lia|].
  change (mjoin (l :: ls)) with (l ++ mjoin ls). rewrite length_app. simpl.
  destruct l as [|x l]; [intros _; left|].
  intros H. right. apply IH. simpl in H. lia.
Qed.

Section SaxShape.

Variable sqrt_fn : Q -> Q.
Variable ppf : Q -> Q.

Lemma standardize_length data :
  length (standardize sqrt_fn data) = length data.
Proof. unfold standardize. rewrite !length_map. reflexivity. Qed.

Lemma sax_breakpoints_inv a bps :
  sax_breakpoints ppf a = Ok bps -> 1 <= a /\ Z.of_nat (length bps) = a.
Proof.
  unfold sax_breakpoints. destruct (Z.eqb_spec a 0); [discriminate|].
  destruct (linspace (1 / inject_Z a) (1 - 1 / inject_Z a) (a - 1)) as [pts|] eqn:Hpts;
    simpl; [|discriminate].
  intros [= <-]. apply linspace_length in Hpts as Hlen.
  rewrite length_app, length_map. simpl. lia.
Qed.

(** X7: whenever [_sax] returns a word, whatever the data, the word has
    exactly [word_size] letters and each of them is one of the first
    [alphbt_size] letters of [string.ascii_letters]; with the default
    [alphbt_size = 4] the word is over ['abcd'], the alphabet [detect]
    counts over. *)
Theorem sax_word_shape (data : list Q) (a w : Z) (word : string) :
  _sax sqrt_fn ppf data a w = Ok word ->
  Z.of_nat (String.length word) = w /\
  (forall i c, String.get i word = Some c ->
     exists j, (j < Z.to_nat a)%nat /\ String.get j ascii_letters = Some c) /\
  (a = 4 -> over "abcd" word).
Proof.
  unfold _sax.
  destruct (sax_breakpoints ppf a) as [bps|] eqn:Hbp; cbn [bind]; [|discriminate].
  destruct (array_split (standardize sqrt_fn (map Fin data)) w) as [sections|] eqn:Hsplit;
    cbn [bind]; [|discriminate].
  destruct (mapM (locate bps) (map np_mean sections)) as [locs|] eqn:Hlocs;
    cbn [bind]; [|discriminate].
  destruct (mapM (getitem_string ascii_letters) locs) as [letters|] eqn:Hletters;
    cbn [bind]; [|discriminate].
  intros [= <-].
  apply sax_breakpoints_inv in Hbp as [Ha Hlen].
  assert (Hw : 0 < w) by (unfold array_split in Hsplit; destruct (Z.leb_spec w 0); [discriminate | lia]).
  destruct (array_split_spec (standardize sqrt_fn (map Fin data)) w Hw)
    as (sections' & Hsplit' & Hn & _).
  rewrite Hsplit in Hsplit'. injection Hsplit' as <-.
  pose proof (mapM_length _ _ _ Hlocs) as Hl1. rewrite length_map in Hl1.
  pose proof (mapM_length _ _ _ Hletters) as Hl2.
  assert (Hletter : forall i c, letters !! i = Some c ->
            exists j, (j < Z.to_nat a)%nat /\ String.get j ascii_letters = Some c).
  { intros i c Hc. apply mapM_inv in Hletters, Hlocs.
    destruct (Forall2_lookup_r _ _ _ _ _ Hletters Hc) as (j & Hj & Hget).
    destruct (Forall2_lookup_r _ _ _ _ _ Hlocs Hj) as (m & _ & Hloc).
    apply first_index_bound in Hloc. exists j. split; [lia|].
    unfold getitem_string in Hget. destruct (String.get j ascii_letters); congruence. }
  split; [rewrite string_of_list_ascii_length; lia|]. split.
  - intros i c Hc. rewrite string_of_list_ascii_get in Hc. eauto.
  - intros ->. unfold over. rewrite list_ascii_of_string_of_list_ascii.
    apply Forall_forall. intros c Hc. apply list_elem_of_lookup in Hc as [i Hi].
    destruct (Hletter i c Hi) as (j & Hj & Hget). change (Z.to_nat 4) with 4%nat in Hj.
    do 4 (destruct j as [|j]; [injection Hget as <-; simpl; set_solver|]). lia.
Qed.

(** X8: data with fewer points than [word_size] cannot be encoded: for
    any [alphbt_size >= 1], [_sax] raises [IndexError], because
    [np.array_split] then yields an empty piece, whose mean is NaN. *)
Theorem sax_short_data (data : list Q) (a w : Z) :
  1 <= a -> Z.of_nat (length data) < w ->
  _sax sqrt_fn ppf data a w = Raise IndexError.
Proof.
  intros Ha Hw. unfold _sax.
  destruct (sax_breakpoints_ok ppf a Ha) as (pts & -> & _). cbn [bind].
  destruct (array_split_spec (standardize sqrt_fn (map Fin data)) w ltac:(lia))
    as (sections & -> & Hn & Hjoin & _). cbn [bind].
  assert (Hempty : [] ∈ sections).
  { apply mjoin_short_has_empty.
    rewrite Hjoin, standardize_length, length_map. lia. }
  erewrite (mapM_some_raise _ _ NaN IndexError); [reflexivity | | apply locate_nan |].
  - apply list_elem_of_fmap. exists []. split; [reflexivity | exact Hempty].
  - intros m e He. eapply first_index_raise, He.
Qed.

(** ** Edge cases of [_get_words] *)

(** X9: [_get_words] raises [ZeroDivisionError] for a zero
    [feature_size]; it returns no word for an empty window, and also,
    without any exception, for a negative [feature_size] that divides
    the length of the window. *)
Theorem get_words_edge_cases (window : list Q) (fs w : Z) :
  _get_words sqrt_fn ppf window 0 w = Raise ZeroDivisionError /\
  (fs <> 0 -> _get_words sqrt_fn ppf [] fs w = Ok []) /\
  (fs < 0 -> Z.of_nat (length window) mod fs = 0 ->
   _get_words sqrt_fn ppf window fs w = Ok []).
Proof.
  split; [reflexivity|]. split.
  - intros Hfs. unfold _get_words. destruct (Z.eqb_spec fs 0); [contradiction|].
    simpl length. rewrite Z.mod_0_l by assumption. simpl.
    rewrite ?Z.quot_0_l by assumption. reflexivity.
  - intros Hfs Hmod. unfold _get_words. destruct (Z.eqb_spec fs 0); [lia|].
    rewrite Hmod. simpl.
    assert (Z.to_nat (Z.quot (Z.of_nat (length window)) fs) = 0%nat) as ->.
    { pose proof (Z.quot_opp_r (Z.of_nat (length window)) (- fs) ltac:(lia)) as Hq.
      rewrite Z.opp_involutive in Hq.
      pose proof (Z.quot_pos (Z.of_nat (length window)) (- fs) ltac:(lia) ltac:(lia)). lia. }
    reflexivity.
Qed.

End SaxShape.

Lemma sax_word_shape_witness :
  exists word, _sax sqrt_approx ppf_table [1; 2; 4; 3]%Q 4 2 = Ok word /\
    Z.of_nat (String.length word) = 2 /\ over "abcd" word.
Proof.
  destruct (_sax sqrt_approx ppf_table [1; 2; 4; 3]%Q 4 2) as [word|e] eqn:H.
  - exists word. split; [reflexivity|].
    destruct (sax_word_shape sqrt_approx ppf_table [1; 2; 4; 3]%Q 4 2 word H)
      as (Hlen & _ & Hover).
    split; [exact Hlen | apply Hover; reflexivity].
  - exfalso. vm_compute in H. discriminate H.
Defined.

Lemma sax_short_data_witness :
  _sax sqrt_approx ppf_table [1; 2]%Q 4 3 = Raise IndexError.
Proof. apply sax_short_data; simpl; lia. Defined.

Lemma get_words_edge_cases_witness :
  _get_words sqrt_approx ppf_table [] 5 2 = Ok [] /\
  _get_words sqrt_approx ppf_table [1; 2; 3; 4]%Q (-2) 1 = Ok [].
Proof.
  destruct (get_words_edge_cases sqrt_approx ppf_table [1; 2; 3; 4]%Q 5 2)
    as (_ & H1 & _).
  destruct (get_words_edge_cases sqrt_approx ppf_table [1; 2; 3; 4]%Q (-2) 1)
    as (_ & _ & H2).
  split; [apply H1; lia | apply H2; [lia | reflexivity]].
Defined.

(** ** Normalized bitmaps and their score *)

Lemma getitem_lookup (b : bitmap) i j row c :
  b !! i = Some row -> row !! j = Some c -> getitem b i j = Some c.
Proof. intros Hi Hj. unfold getitem. rewrite Hi. exact Hj. Qed.

(** What the finished loop of [_build_bitmap] says about each cell. *)
Lemma build_inv_cell side max_value (freqs : gmap string Q) st i j :
  size freqs = (side * side)%nat ->
  build_inv side max_value freqs (sorted_keys freqs) st ->
  (i < side)%nat -> (j < side)%nat ->
  exists key v,
    sorted_keys freqs !! (i * side + j)%nat = Some key /\
    freqs !! key = Some v /\
    getitem (bs_bitmap st) i j = Some (normalize max_value v).
Proof.
  intros Hsize [_ _ _ _ _ Hcells _] Hi Hj.
  assert (Hp : (i * side + j < length (sorted_keys freqs))%nat)
    by (rewrite sorted_keys_length, Hsize; nia).
  apply lookup_lt_is_Some in Hp as [key Hkey].
  assert (Hin : is_Some (freqs !! key)).
  { apply sorted_keys_elem. eapply list_elem_of_lookup_2, Hkey. }
  destruct Hin as [v Hv]. exists key, v.
  split; [exact Hkey|]. split; [exact Hv|].
  pose proof (Hcells _ _ Hkey) as Hcell. rewrite Hv in Hcell. simpl in Hcell.
  rewrite Nat.div_add_l, Nat.div_small, Nat.add_0_r in Hcell by lia.
  rewrite Nat.add_comm, Nat.Div0.mod_add, Nat.mod_small in Hcell by lia.
  exact Hcell.
Qed.

Lemma _build_bitmap_unit (freqs : gmap string Q) side res :
  freqs <> ∅ -> size freqs = (side * side)%nat ->
  (forall key v, freqs !! key = Some v -> (0 <= v)%Q) ->
  _build_bitmap freqs = Ok res -> unit_bitmap side (snd res).
Proof.
  intros Hne Hsize Hpos Hres.
  destruct (_build_bitmap_run freqs side Hne Hsize) as (mx & st & Hmax & Hinv & Hrun).
  rewrite Hrun in Hres. injection Hres as <-. simpl.
  apply py_max_spec in Hmax as [_ Hle].
  pose proof Hinv as [_ _ _ Hrows Hcols _ _].
  split; [exact Hrows|]. apply Forall_lookup_2. intros i row Hrow.
  pose proof (Forall_lookup_1 _ _ _ _ Hcols Hrow) as Hlen. simpl in Hlen.
  split; [exact Hlen|]. apply Forall_lookup_2. intros j c Hc.
  apply lookup_lt_Some in Hrow as Hi. apply lookup_lt_Some in Hc as Hj.
  destruct (build_inv_cell side mx freqs st i j Hsize Hinv) as (key & v & _ & Hv & Hget);
    [lia | lia |].
  rewrite (getitem_lookup _ _ _ _ _ Hrow Hc) in Hget. injection Hget as ->.
  apply normalize_range; [eapply Hpos, Hv|].
  eapply (proj1 (Forall_forall _ _) Hle). apply elem_of_values. eauto.
Qed.

Lemma sq_diff_le_1 a b :
  (0 <= a /\ a <= 1)%Q -> (0 <= b /\ b <= 1)%Q -> (sq_diff a b <= 1)%Q.
Proof.
  intros [Ha0 Ha1] [Hb0 Hb1]. unfold sq_diff.
  destruct (Qlt_le_dec a b) as [Hlt|Hge].
  - assert ((a - b) * (a - b) == (b - a) * (b - a))%Q as -> by ring.
    assert (H1 : ((b - a) * (b - a) <= 1 * (b - a))%Q)
      by (apply Qmult_le_compat_r; lra).
    lra.
  - assert (H1 : ((a - b) * (a - b) <= 1 * (a - b))%Q)
      by (apply Qmult_le_compat_r; lra).
    lra.
Qed.

Lemma row_dist_le ra rb :
  Forall (fun c => 0 <= c /\ c <= 1)%Q ra -> Forall (fun c => 0 <= c /\ c <= 1)%Q rb ->
  (row_dist ra rb <= inject_Z (Z.of_nat (length ra)))%Q.
Proof.
  unfold row_dist. intros Ha. revert rb.
  induction Ha as [|a ra Ha _ IH]; intros rb Hb; [apply Qle_refl|].
  destruct Hb as [|b rb Hb Hrb].
  - simpl sumQ. replace 0%Q with (inject_Z 0) by reflexivity. rewrite <- Zle_Qle. lia.
  - cbn [zip_with sumQ fold_right length]. rewrite Nat2Z.inj_succ. unfold Z.succ.
    rewrite inject_Z_plus. pose proof (sq_diff_le_1 a b Ha Hb). specialize (IH rb Hrb).
    unfold sumQ in IH. change (inject_Z 1) with 1%Q. lra.
Qed.

Lemma _dist_unit_le side A B :
  unit_bitmap side A -> unit_bitmap side B ->
  (_dist A B <= inject_Z (Z.of_nat (side * side)))%Q.
Proof.
  intros [HlenA HA] [_ HB]. rewrite _dist_rows.
  assert (H : (sumQ (zip_with row_dist A B)
               <= inject_Z (Z.of_nat (length A * side)))%Q).
  { clear HlenA. revert B HB. induction HA as [|ra A [Hra Hca] _ IH]; intros B HB.
    - apply Qle_refl.
    - destruct HB as [|rb B [Hrb Hcb] HB].
      + simpl sumQ. replace 0%Q with (inject_Z 0) by reflexivity. rewrite <- Zle_Qle. lia.
      + cbn [zip_with sumQ fold_right length]. specialize (IH B HB).
        pose proof (row_dist_le ra rb Hca Hcb) as Hr. rewrite Hra in Hr.
        replace (S (length A) * side)%nat with (side + length A * side)%nat by lia.
        rewrite Nat2Z.inj_add, inject_Z_plus. unfold sumQ in IH. lra. }
  rewrite HlenA in H. exact H.
Qed.

(** X10: the non-zero bitmaps are normalized to peak 1: on a non-empty
    table of non-negative counts whose size is a perfect square, the
    bitmap is entirely 0 when every count is 0, and otherwise holds a
    cell equal to 1, at the position of a key with the largest count. *)
Theorem build_bitmap_peak (freqs : gmap string Q) (side : nat)
    (res : gmap string Q * bitmap) :
  freqs <> ∅ -> size freqs = (side * side)%nat ->
  (forall key v, freqs !! key = Some v -> (0 <= v)%Q) ->
  _build_bitmap freqs = Ok res ->
  ((forall key v, freqs !! key = Some v -> (v == 0)%Q) ->
   forall i j c, getitem (snd res) i j = Some c -> c = 0%Q) /\
  ((exists key v, freqs !! key = Some v /\ (0 < v)%Q) ->
   exists i j c, getitem (snd res) i j = Some c /\ (c == 1)%Q).
Proof.
  intros Hne Hsize Hpos Hres.
  destruct (_build_bitmap_run freqs side Hne Hsize) as (mx & st & Hmax & Hinv & Hrun).
  rewrite Hrun in Hres. injection Hres as <-. simpl.
  apply py_max_spec in Hmax as [Hin Hle].
  apply elem_of_values in Hin as [kmax Hkmax].
  assert (Hbound : forall key v, freqs !! key = Some v -> (v <= mx)%Q).
  { intros key v Hv. eapply (proj1 (Forall_forall _ _) Hle). apply elem_of_values. eauto. }
  pose proof Hinv as [_ _ _ Hrows Hcols Hcells _].
  split.
  - intros Hzero i j c Hc.
    assert (Hmx : Qeq_bool mx 0 = true) by (apply Qeq_bool_iff; eapply Hzero, Hkmax).
    unfold getitem in Hc. destruct (bs_bitmap st !! i) as [row|] eqn:Hrow; [|discriminate].
    simpl in Hc. apply lookup_lt_Some in Hrow as Hi. apply lookup_lt_Some in Hc as Hj.
    pose proof (Forall_lookup_1 _ _ _ _ Hcols Hrow) as Hlen. simpl in Hlen.
    destruct (build_inv_cell side mx freqs st i j Hsize Hinv) as (key & v & _ & _ & Hget);
      [lia | lia |].
    rewrite (getitem_lookup _ _ _ _ _ Hrow Hc) in Hget. injection Hget as ->.
    unfold normalize. rewrite Hmx. reflexivity.
  - intros (key & v & Hv & Hvpos).
    assert (Hmxpos : (0 < mx)%Q) by (pose proof (Hbound _ _ Hv); lra).
    assert (Hkin : kmax ∈ sorted_keys freqs) by (apply sorted_keys_elem; eauto).
    apply list_elem_of_lookup in Hkin as [p Hp].
    pose proof (Hcells _ _ Hp) as Hcell. rewrite Hkmax in Hcell. simpl in Hcell.
    eexists _, _, _. split; [exact Hcell|].
    unfold normalize. destruct (Qeq_bool mx 0) eqn:E.
    + apply Qeq_bool_eq in E. lra.
    + field. lra.
Qed.

Lemma build_bitmap_peak_witness :
  exists res i j c,
    _build_bitmap (_count_frequencies ["aaaa"; "abab"] "ab" 2) = Ok res /\
    getitem (snd res) i j = Some c /\ (c == 1)%Q.
Proof.
  destruct (_build_bitmap (_count_frequencies ["aaaa"; "abab"] "ab" 2)) as [res|e] eqn:H.
  - destruct (build_bitmap_peak (_count_frequencies ["aaaa"; "abab"] "ab" 2) 2 res)
      as [_ Hpeak].
    + intros E. apply (f_equal (fun m : gmap string Q => m !! "aa")) in E.
      vm_compute in E. discriminate E.
    + vm_compute. reflexivity.
    + apply _count_frequencies_nonneg.
    + exact H.
    + destruct Hpeak as (i & j & c & Hc & H1).
      * exists "aa", (0 + 3 + 0)%Q. split; [reflexivity | reflexivity].
      * exists res, i, j, c. auto.
  - exfalso. vm_compute in H. discriminate H.
Defined.

Lemma ingest_recursion_level d x d' :
  ingest d x = Ok d' -> _recursion_level d' = _recursion_level d.
Proof.
  unfold ingest. destruct (len (_lead_window d) =? _lead_window_size d).
  - destruct (popleft (_lead_window d)); simpl; [|discriminate]. intros [= <-]. reflexivity.
  - simpl. intros [= <-]. reflexivity.
Qed.

Section Scores.

Variable sqrt_fn : Q -> Q.
Variable ppf : Q -> Q.

Lemma _build_bitmap_counts_unit words r res :
  _build_bitmap (_count_frequencies words "abcd" r) = Ok res ->
  unit_bitmap (2 ^ Z.to_nat (Z.max r 1)) (snd res).
Proof.
  pose proof (_count_frequencies_size words r) as Hsize.
  apply _build_bitmap_unit; [|exact Hsize|apply _count_frequencies_nonneg].
  apply map_size_non_empty_iff. rewrite Hsize.
  pose proof (Nat.pow_nonzero 2 (Z.to_nat (Z.max r 1)) ltac:(lia)). nia.
Qed.

Lemma analyse_bounds d a :
  analyse sqrt_fn ppf d = Ok a ->
  let side := (2 ^ Z.to_nat (Z.max (_recursion_level d) 1))%nat in
  unit_bitmap side (bitmp1 a) /\ unit_bitmap side (bitmp2 a) /\
  (0 <= score a)%Q /\ (score a <= inject_Z (Z.of_nat (side * side)))%Q.
Proof.
  unfold analyse.
  destruct (_get_words sqrt_fn ppf (items (_lead_window d)) (_window_size d) (_word_size d))
    as [lead_words|]; cbn [bind]; [|discriminate].
  destruct (_get_words sqrt_fn ppf (items (_lag_window d)) (_window_size d) (_word_size d))
    as [lag_words|]; cbn [bind]; [|discriminate].
  destruct (_build_bitmap (_count_frequencies lead_words "abcd" (_recursion_level d)))
    as [lead|] eqn:Hlead; cbn [bind]; [|discriminate].
  destruct (_build_bitmap (_count_frequencies lag_words "abcd" (_recursion_level d)))
    as [lag|] eqn:Hlag; cbn [bind]; [|discriminate].
  intros [= <-]. simpl.
  apply _build_bitmap_counts_unit in Hlead, Hlag.
  split; [exact Hlead|]. split; [exact Hlag|].
  split; [apply _dist_nonneg | apply _dist_unit_le; assumption].
Qed.

Lemma detect_loop_Forall (P : Analysis -> Prop) r xs : forall d acc d' results,
  (forall d a, _recursion_level d = r -> analyse sqrt_fn ppf d = Ok a -> P a) ->
  _recursion_level d = r -> Forall P acc ->
  detect_loop sqrt_fn ppf d acc xs = (d', Ok results) -> Forall P results.
Proof.
  induction xs as [|x xs IH]; intros d acc d' results HP Hr Hacc; cbn [detect_loop].
  - intros [= _ <-]. exact Hacc.
  - destruct (ingest d x) as [d1|] eqn:Hi; [|discriminate].
    pose proof (ingest_recursion_level _ _ _ Hi) as Hr1. rewrite Hr in Hr1.
    destruct (windows_full d1); [|eapply IH; eassumption].
    destruct (analyse sqrt_fn ppf d1) as [a|] eqn:Ha; [|discriminate].
    eapply IH; [exact HP | exact Hr1 |].
    apply Forall_app. split; [exact Hacc|]. constructor; [eapply HP; eassumption | constructor].
Qed.

(** X11: every [Analysis] that [detect] returns holds two square
    bitmaps of side [2 ^ max(recursion_level, 1)] with all cells in
    [0, 1], and a score between 0 and the number of cells. *)
Theorem detect_results_bounded (d d' : detector) (xs : list Q) (ts : datetime)
    (results : list Analysis) :
  detect sqrt_fn ppf d xs ts = (d', Ok results) ->
  let side := (2 ^ Z.to_nat (Z.max (_recursion_level d) 1))%nat in
  Forall (fun a =>
            unit_bitmap side (bitmp1 a) /\ unit_bitmap side (bitmp2 a) /\
            (0 <= score a)%Q /\ (score a <= inject_Z (Z.of_nat (side * side)))%Q)
         results.
Proof.
  intros H side. unfold detect in H.
  eapply (detect_loop_Forall _ (_recursion_level d)); [| | constructor | exact H].
  - intros d1 a Hr Ha. pose proof (analyse_bounds d1 a Ha) as Hb.
    rewrite Hr in Hb. exact Hb.
  - reflexivity.
Qed.

(** X12: when the lead and the lag window hold the same samples, the
    two bitmaps of the analysis are equal and the score is 0. *)
Theorem analyse_same_windows (d : detector) (a : Analysis) :
  items (_lead_window d) = items (_lag_window d) ->
  analyse sqrt_fn ppf d = Ok a ->
  bitmp1 a = bitmp2 a /\ (score a == 0)%Q.
Proof.
  intros Hsame. unfold analyse. rewrite Hsame.
  destruct (_get_words sqrt_fn ppf (items (_lag_window d)) (_window_size d) (_word_size d))
    as [words|]; cbn [bind]; [|discriminate].
  destruct (_build_bitmap (_count_frequencies words "abcd" (_recursion_level d)))
    as [res|]; cbn [bind]; [|discriminate].
  intros [= <-]. simpl. split; [reflexivity|].
  apply _dist_zero; [apply same_shape_refl | apply identical_refl].
Qed.

End Scores.

Lemma detect_results_bounded_witness :
  exists d' results,
    detect sqrt_approx ppf_table example_detector [1; 2; 3; 4; 5; 6; 7; 8]%Q 5
    = (d', Ok results) /\
    Forall (fun a => (0 <= score a)%Q /\ (score a <= 16)%Q) results.
Proof.
  destruct (detect sqrt_approx ppf_table example_detector [1; 2; 3; 4; 5; 6; 7; 8]%Q 5)
    as [d' [results|e]] eqn:H.
  - exists d', results. split; [reflexivity|].
    pose proof (detect_results_bounded sqrt_approx ppf_table example_detector d'
                  [1; 2; 3; 4; 5; 6; 7; 8]%Q 5 results H) as Hb.
    eapply Forall_impl; [exact Hb|]. simpl. intros a (_ & _ & H0 & H1).
    split; [exact H0 | exact H1].
  - exfalso. apply (f_equal snd) in H. vm_compute in H. discriminate H.
Defined.

Lemma analyse_same_windows_witness :
  let d8 := fst (detect sqrt_approx ppf_table example_detector
                   [1; 2; 4; 3; 1; 2; 4; 3]%Q 1) in
  items (_lead_window d8) = items (_lag_window d8) /\
  exists a, analyse sqrt_approx ppf_table d8 = Ok a /\ (score a == 0)%Q.
Proof.
  intros d8.
  assert (Hsame : items (_lead_window d8) = items (_lag_window d8))
    by (vm_compute; reflexivity).
  split; [exact Hsame|].
  destruct (analyse sqrt_approx ppf_table d8) as [a|e] eqn:Ha.
  - exists a. split; [reflexivity|].
    apply (analyse_same_windows sqrt_approx ppf_table d8 a Hsame Ha).
  - exfalso. vm_compute in Ha. discriminate Ha.
Defined.

(** ** SAX words do not depend on the level of the signal *)





Section Shift.

Variable sqrt_fn : Q -> Q.
Variable ppf : Q -> Q.
Hypothesis sqrt_fn_proper : forall u v, (u == v)%Q -> (sqrt_fn u == sqrt_fn v)%Q.




End Shift.


(** ** Subwords longer than the words *)

Lemma count_all_too_long key words :
  Forall (fun word => (String.length word < String.length key)%nat) words ->
  (count_all key words 0 == 0)%Q.
Proof.
  intros H. rewrite count_all_sum.
  assert (sum_list (occurrences key <$> words) = 0%nat) as ->; [|reflexivity].
  induction H as [|word words Hw _ IH]; [reflexivity|].
  change (sum_list (occurrences key <$> word :: words))
    with (occurrences key word + sum_list (occurrences key <$> words))%nat.
  rewrite IH, occurrences_too_long by exact Hw. reflexivity.
Qed.

Lemma _count_frequencies_too_long words alphabet n key v :
  Forall (fun word => (String.length word < Z.to_nat (Z.max n 1))%nat) words ->
  _count_frequencies words alphabet n !! key = Some v -> (v == 0)%Q.
Proof.
  intros Hshort. rewrite _count_frequencies_lookup.
  destruct (decide (key ∈ _build_combinations alphabet ∅ n)) as [Hin|]; [|discriminate].
  intros [= <-]. apply count_all_too_long.
  destruct (_build_combinations_spec alphabet n) as [Hall _].
  apply Hall in Hin as [Hlen _]. rewrite Hlen. exact Hshort.
Qed.

Lemma _build_bitmap_all_zero (freqs : gmap string Q) side res :
  freqs <> ∅ -> size freqs = (side * side)%nat ->
  (forall key v, freqs !! key = Some v -> (v == 0)%Q) ->
  _build_bitmap freqs = Ok res -> snd res = np_zeros side side.
Proof.
  intros Hne Hsize Hzero Hres.
  destruct (_build_bitmap_run freqs side Hne Hsize) as (mx & st & Hmax & Hinv & Hrun).
  rewrite Hrun in Hres. injection Hres as <-. simpl.
  apply py_max_spec in Hmax as [Hin _].
  apply elem_of_values in Hin as [kmax Hkmax].
  assert (Hmx : Qeq_bool mx 0 = true) by (apply Qeq_bool_iff; eapply Hzero, Hkmax).
  pose proof Hinv as [_ _ _ Hrows Hcols _ _].
  destruct (np_zeros_shape side side) as [Hzrows Hzcols].
  apply list_eq_same_length with side; [exact Hzrows | exact Hrows |].
  intros i row zrow Hi Hrow Hzrow.
  pose proof (Forall_lookup_1 _ _ _ _ Hcols Hrow) as Hlen. simpl in Hlen.
  pose proof (Forall_lookup_1 _ _ _ _ Hzcols Hzrow) as Hzlen. simpl in Hzlen.
  apply list_eq_same_length with side; [exact Hzlen | exact Hlen |].
  intros j c z Hj Hc Hz.
  destruct (build_inv_cell side mx freqs st i j Hsize Hinv Hi Hj) as (key & v & _ & _ & Hget).
  rewrite (getitem_lookup _ _ _ _ _ Hrow Hc) in Hget. injection Hget as ->.
  unfold np_zeros in Hzrow. apply lookup_replicate in Hzrow as [-> _].
  apply lookup_replicate in Hz as [-> _].
  unfold normalize. rewrite Hmx. reflexivity.
Qed.

Section ShortWords.

Variable sqrt_fn : Q -> Q.
Variable ppf : Q -> Q.

Lemma sax_returns_length data a w word :
  _sax sqrt_fn ppf data a w = Ok word -> Z.of_nat (String.length word) = w.
Proof.
  unfold _sax.
  destruct (sax_breakpoints ppf a) as [bps|]; cbn [bind]; [|discriminate].
  destruct (array_split (standardize sqrt_fn (map Fin data)) w) as [sections|] eqn:Hsplit;
    cbn [bind]; [|discriminate].
  destruct (mapM (locate bps) (map np_mean sections)) as [locs|] eqn:Hlocs;
    cbn [bind]; [|discriminate].
  destruct (mapM (getitem_string ascii_letters) locs) as [letters|] eqn:Hletters;
    cbn [bind]; [|discriminate].
  intros [= <-].
  assert (Hw : 0 < w)
    by (unfold array_split in Hsplit; destruct (Z.leb_spec w 0); [discriminate | lia]).
  destruct (array_split_spec (standardize sqrt_fn (map Fin data)) w Hw)
    as (sections' & Hsplit' & Hn & _).
  rewrite Hsplit in Hsplit'. injection Hsplit' as <-.
  apply mapM_length in Hlocs, Hletters. rewrite length_map in Hlocs.
  rewrite string_of_list_ascii_length. lia.
Qed.

Lemma _get_words_lengths window fs w words :
  _get_words sqrt_fn ppf window fs w = Ok words ->
  Forall (fun word => Z.of_nat (String.length word) = w) words.
Proof.
  unfold _get_words. destruct (fs =? 0); [discriminate|].
  destruct (negb (Z.of_nat (length window) mod fs =? 0)); [discriminate|].
  intros H. apply mapM_inv in H. apply Forall_lookup_2. intros k word Hk.
  destruct (Forall2_lookup_r _ _ _ _ _ H Hk) as (i & _ & Hsax).
  eapply sax_returns_length, Hsax.
Qed.

(** X14: a [recursion_level] larger than [word_size] blinds the
    detector: no subword of that length fits into a word, every count
    is 0, and each analysis has two all-zero bitmaps and the score 0,
    whatever the signal. *)
Theorem analyse_subword_too_long (d : detector) (a : Analysis) :
  _word_size d < _recursion_level d ->
  analyse sqrt_fn ppf d = Ok a ->
  let side := (2 ^ Z.to_nat (Z.max (_recursion_level d) 1))%nat in
  bitmp1 a = np_zeros side side /\ bitmp2 a = np_zeros side side /\ (score a == 0)%Q.
Proof.
  intros Hlong. unfold analyse.
  destruct (_get_words sqrt_fn ppf (items (_lead_window d)) (_window_size d) (_word_size d))
    as [lead_words|] eqn:Hlw; cbn [bind]; [|discriminate].
  destruct (_get_words sqrt_fn ppf (items (_lag_window d)) (_window_size d) (_word_size d))
    as [lag_words|] eqn:Hgw; cbn [bind]; [|discriminate].
  destruct (_build_bitmap (_count_frequencies lead_words "abcd" (_recursion_level d)))
    as [lead|] eqn:Hlead; cbn [bind]; [|discriminate].
  destruct (_build_bitmap (_count_frequencies lag_words "abcd" (_recursion_level d)))
    as [lag|] eqn:Hlag; cbn [bind]; [|discriminate].
  intros [= <-]. simpl.
  assert (Hzero : forall words res,
            _get_words sqrt_fn ppf words (_window_size d) (_word_size d) = Ok res ->
            forall bm, _build_bitmap (_count_frequencies res "abcd" (_recursion_level d)) = Ok bm ->
            snd bm = np_zeros (2 ^ Z.to_nat (Z.max (_recursion_level d) 1))
                              (2 ^ Z.to_nat (Z.max (_recursion_level d) 1))).
  { intros window res Hres bm Hbm.
    pose proof (_count_frequencies_size res (_recursion_level d)) as Hsize.
    eapply _build_bitmap_all_zero; [|exact Hsize| |exact Hbm].
    - apply map_size_non_empty_iff. rewrite Hsize.
      pose proof (Nat.pow_nonzero 2 (Z.to_nat (Z.max (_recursion_level d) 1)) ltac:(lia)). nia.
    - intros key v. apply _count_frequencies_too_long.
      eapply Forall_impl; [eapply _get_words_lengths, Hres|]. simpl. intros word Hlen. lia. }
  rewrite (Hzero _ _ Hlw _ Hlead), (Hzero _ _ Hgw _ Hlag).
  split; [reflexivity|]. split; [reflexivity|].
  apply _dist_zero; [apply same_shape_refl | apply identical_refl].
Qed.

End ShortWords.

Lemma analyse_subword_too_long_witness :
  exists d0, __init__ 2 2 1 1 3 = Ok d0 /\
    let d8 := fst (detect sqrt_approx ppf_table d0 [1; 2; 3; 4; 5; 6; 7; 8]%Q 1) in
    _word_size d8 < _recursion_level d8 /\
    exists a, analyse sqrt_approx ppf_table d8 = Ok a /\ (score a == 0)%Q.
Proof.
  eexists. split; [reflexivity|]. intros d8.
  assert (Hlong : _word_size d8 < _recursion_level d8) by (vm_compute; reflexivity).
  split; [exact Hlong|].
  destruct (analyse sqrt_approx ppf_table d8) as [a|e] eqn:Ha.
  - exists a. split; [reflexivity|].
    apply (analyse_subword_too_long sqrt_approx ppf_table d8 a Hlong Ha).
  - exfalso. vm_compute in Ha. discriminate Ha.
Defined.

(** ** The detector after an exception *)

Lemma ingest_universe_size d x d' :
  ingest d x = Ok d' -> universe_size d' = universe_size d.
Proof.
  unfold ingest. destruct (len (_lead_window d) =? _lead_window_size d).
  - destruct (popleft (_lead_window d)); simpl; [|discriminate]. intros [= <-]. reflexivity.
  - simpl. intros [= <-]. reflexivity.
Qed.

Lemma ingest_all_universe_size d xs d' :
  ingest_all d xs = Ok d' -> universe_size d' = universe_size d.
Proof.
  revert d. induction xs as [|x xs IH]; intros d; simpl.
  - intros [= <-]. reflexivity.
  - destruct (ingest d x) as [d1|] eqn:Hi; simpl; [|discriminate].
    intros H. rewrite (IH _ H). eapply ingest_universe_size, Hi.
Qed.

Section Consistency.

Variable sqrt_fn : Q -> Q.
Variable ppf : Q -> Q.

(** X15: whether [detect] returns or raises, it leaves a consistent
    detector: the configuration is unchanged, the windows are those of
    the samples fed so far (the batch up to the point of the exception),
    and they never hold more than [universe_size] samples; this holds
    for the constructed detector and is kept by every call. *)
Theorem detect_keeps_consistent (w wf lf lgf r : Z) :
  let llead := lf * (wf * w) in
  let llag := lgf * (wf * w) in
  (forall d0, __init__ w wf lf lgf r = Ok d0 ->
     configured w wf lf lgf r d0 /\ windows_of llead llag [] d0 /\
     universe_size d0 = llead + llag) /\
  forall hist d xs ts,
    configured w wf lf lgf r d -> windows_of llead llag hist d ->
    universe_size d = llead + llag ->
    let d' := fst (detect sqrt_fn ppf d xs ts) in
    configured w wf lf lgf r d' /\
    universe_size d' = llead + llag /\
    len (_lead_window d') + len (_lag_window d') <= universe_size d' /\
    exists done rest,
      xs = done ++ rest /\ windows_of llead llag (hist ++ done) d' /\
      (forall results, snd (detect sqrt_fn ppf d xs ts) = Ok results -> rest = []).
Proof.
  intros llead llag. split.
  - intros d0 Hinit. pose proof (__init___windows _ _ _ _ _ _ Hinit) as Hwo.
    destruct (__init___ok w wf lf lgf r) as (d & Hd & H1 & H2 & H3 & H4 & H5);
      [apply Hwo | apply Hwo |].
    rewrite Hinit in Hd. injection Hd as <-.
    split; [split; assumption|]. split; [exact Hwo|].
    unfold __init__, deque_new in Hinit.
    destruct (lf * (wf * w) <? 0); [discriminate|].
    destruct (lgf * (wf * w) <? 0); [discriminate|].
    simpl in Hinit. injection Hinit as <-. reflexivity.
  - intros hist d xs ts Hcf Hwo Hu d'. subst d'. unfold detect.
    pose proof (set_last_timestamp_configured _ _ _ _ _ _ ts Hcf) as Hcf1.
    pose proof (set_last_timestamp_windows _ _ _ _ ts Hwo) as Hwo1.
    destruct (detect_loop_prefix sqrt_fn ppf xs (set_last_timestamp d ts) [])
      as (done & rest & Hsplit & Hing & Hok & _).
    pose proof (ingest_all_configured _ _ _ _ _ _ _ _ Hcf1 Hing) as Hcf'.
    pose proof (ingest_all_windows _ _ _ _ _ _ Hwo1 Hing) as Hwo'.
    pose proof (ingest_all_universe_size _ _ _ Hing) as Hu'. simpl in Hu'.
    split; [exact Hcf'|]. split; [rewrite Hu'; exact Hu|]. split.
    + rewrite Hu', Hu. destruct Hwo' as [_ _ _ _ Hl0 Hg0 Hl Hg].
      unfold len. rewrite Hl, Hg, !lastn_length by assumption. lia.
    + exists done, rest. split; [exact Hsplit|]. split; [exact Hwo' | exact Hok].
Qed.

End Consistency.

Lemma detect_keeps_consistent_witness :
  let d' := fst (detect sqrt_approx ppf_table example_detector
                   [1; 2; 3; 4; 5; 5; 5; 5; 6]%Q 1) in
  snd (detect sqrt_approx ppf_table example_detector [1; 2; 3; 4; 5; 5; 5; 5; 6]%Q 1)
  = Raise IndexError /\
  len (_lead_window d') + len (_lag_window d') <= universe_size d' /\
  configured 2 2 1 1 2 d'.
Proof.
  intros d'. split; [vm_compute; reflexivity|].
  destruct (detect_keeps_consistent sqrt_approx ppf_table 2 2 1 1 2) as [Hinit Hkeep].
  destruct (Hinit example_detector eq_refl) as (Hcf & Hwo & Hu).
  destruct (Hkeep [] example_detector [1; 2; 3; 4; 5; 5; 5; 5; 6]%Q 1 Hcf Hwo Hu)
    as (Hcf' & _ & Hbound & _).
  split; [exact Hbound | exact Hcf'].
Defined.

(** ** The total of a frequency table *)

Lemma Qsum_perm l1 l2 : l1 ≡ₚ l2 -> (Qsum l1 == Qsum l2)%Q.
Proof.
  induction 1 as [|x l1 l2 _ IH|x y l|l1 l2 l3 _ IH1 _ IH2].
  - reflexivity.
  - rewrite !Qsum_cons, IH. reflexivity.
  - rewrite !Qsum_cons. ring.
  - rewrite IH1. exact IH2.
Qed.

Lemma Qsum_inject (l : list nat) :
  (Qsum ((fun n => inject_Z (Z.of_nat n)) <$> l) == inject_Z (Z.of_nat (sum_list l)))%Q.
Proof.
  induction l as [|n l IH]; [reflexivity|].
  rewrite fmap_cons, Qsum_cons, IH. simpl sum_list.
  rewrite Nat2Z.inj_add, inject_Z_plus. reflexivity.
Qed.

Lemma sum_list_fmap_plus {A} (f g : A -> nat) l :
  sum_list ((fun x => f x + g x)%nat <$> l) = (sum_list (f <$> l) + sum_list (g <$> l))%nat.
Proof. induction l as [|x l IH]; csimpl; lia. Qed.

Lemma sum_list_fmap_zero {A} (f : A -> nat) l :
  Forall (fun x => f x = 0%nat) l -> sum_list (f <$> l) = 0%nat.
Proof. induction 1 as [|x l Hx _ IH]; csimpl; lia. Qed.

Lemma sum_list_indicator (p : string) (l : list string) :
  NoDup l ->
  sum_list ((fun key => if decide (key = p) then 1 else 0)%nat <$> l)
  = if decide (p ∈ l) then 1%nat else 0%nat.
Proof.
  induction 1 as [|x l Hx _ IH]; [reflexivity|].
  rewrite fmap_cons. simpl sum_list. rewrite IH.
  destruct (decide (x = p)) as [->|Hne].
  - rewrite decide_False by exact Hx. rewrite decide_True by left. reflexivity.
  - destruct (decide (p ∈ l)) as [Hin|Hnin].
    + rewrite decide_True by (right; exact Hin). reflexivity.
    + rewrite decide_False; [reflexivity|].
      intros [->|H]%elem_of_cons; [apply Hne; reflexivity | apply Hnin, H].
Qed.

Lemma sum_list_swap (keys words : list string) :
  sum_list ((fun key => sum_list (occurrences key <$> words)) <$> keys)
  = sum_list ((fun word => sum_list ((fun key => occurrences key word) <$> keys)) <$> words).
Proof.
  induction words as [|word words IH].
  - simpl. apply sum_list_fmap_zero, Forall_forall. reflexivity.
  - rewrite fmap_cons. simpl sum_list. rewrite <- IH, <- sum_list_fmap_plus. reflexivity.
Qed.

Lemma substring_0_length k s :
  (k <= String.length s)%nat -> String.length (substring 0 k s) = k.
Proof.
  revert s. induction k as [|k IH]; intros [|c s] Hk; simpl in *; try reflexivity; try lia.
  f_equal. apply IH. lia.
Qed.

Lemma over_tail alphabet c s : over alphabet (String c s) -> over alphabet s.
Proof. unfold over. simpl. intros H. inversion H; assumption. Qed.

Lemma over_substring_0 alphabet k s :
  over alphabet s -> over alphabet (substring 0 k s).
Proof.
  unfold over. revert s. induction k as [|k IH]; intros [|c s] H; simpl in *;
    try apply Forall_nil_2.
  inversion H; subst. apply Forall_cons_2; [assumption | apply IH; assumption].
Qed.

(** Among all words of length [k], exactly one is a prefix of a word of
    at least [k] letters, and none of a shorter word. *)
Lemma one_prefix alphabet k (combinations : gset string) s :
  all_words alphabet k combinations -> over alphabet s ->
  sum_list ((fun key => if String.prefix key s then 1 else 0)%nat <$> elements combinations)
  = if decide (k <= String.length s)%nat then 1%nat else 0%nat.
Proof.
  intros Hall Hs. destruct (decide (k <= String.length s)%nat) as [Hk|Hk].
  - assert ((fun key => if String.prefix key s then 1 else 0)%nat <$> elements combinations
            = (fun key => if decide (key = substring 0 k s) then 1 else 0)%nat
                <$> elements combinations) as ->.
    { apply Forall_fmap_ext_1, Forall_forall. intros key Hkey.
      apply elem_of_elements, Hall in Hkey. destruct Hkey as [Hlen _].
      destruct (String.prefix key s) eqn:E.
      - apply prefix_correct in E. rewrite Hlen in E.
        rewrite decide_True by (symmetry; exact E). reflexivity.
      - destruct (decide (key = substring 0 k s)) as [Heq|]; [|reflexivity].
        assert (String.prefix key s = true) as E'; [|congruence].
        apply prefix_correct. rewrite Hlen. symmetry. exact Heq. }
    rewrite sum_list_indicator by apply NoDup_elements.
    rewrite decide_True; [reflexivity|].
    apply elem_of_elements, Hall. split;
      [apply substring_0_length, Hk | apply over_substring_0, Hs].
  - apply sum_list_fmap_zero, Forall_forall. intros key Hkey.
    apply elem_of_elements, Hall in Hkey. destruct Hkey as [Hlen _].
    rewrite prefix_too_long by lia. reflexivity.
Qed.

Lemma occurrences_sum (keys : list string) s :
  sum_list ((fun key => occurrences key s) <$> keys)
  = (sum_list ((fun key => if String.prefix key s then 1 else 0)%nat <$> keys)
     + match s with
       | EmptyString => 0
       | String _ s' => sum_list ((fun key => occurrences key s') <$> keys)
       end)%nat.
Proof.
  induction keys as [|key keys IH]; [destruct s; reflexivity|].
  rewrite !fmap_cons. cbn [sum_list sum_list_with]. rewrite IH.
  destruct s as [|c s].
  - cbn [occurrences]. unfold id. lia.
  - rewrite fmap_cons. cbn [occurrences sum_list sum_list_with]. unfold id. lia.
Qed.

(** Every window of a word over the alphabet is counted under exactly
    one key. *)
Lemma windows_once alphabet k (combinations : gset string) s :
  (1 <= k)%nat -> all_words alphabet k combinations -> over alphabet s ->
  sum_list ((fun key => occurrences key s) <$> elements combinations) = windows k s.
Proof.
  intros Hk Hall. unfold windows. induction s as [|c s IH]; intros Hs.
  - rewrite occurrences_sum, (one_prefix _ _ _ _ Hall Hs).
    rewrite decide_False by (simpl; lia). simpl. lia.
  - rewrite occurrences_sum, (one_prefix _ _ _ _ Hall Hs), (IH (over_tail _ _ _ Hs)).
    simpl String.length. destruct (decide (k <= S (String.length s))%nat); lia.
Qed.

Lemma _count_frequencies_values words alphabet n :
  snd <$> map_to_list (_count_frequencies words alphabet n)
  ≡ₚ (fun key => count_all key words 0%Q) <$> elements (_build_combinations alphabet ∅ n).
Proof.
  assert (map_to_list (_count_frequencies words alphabet n)
          ≡ₚ (fun key => (key, count_all key words 0%Q))
               <$> elements (_build_combinations alphabet ∅ n)) as ->.
  { apply NoDup_Permutation.
    - apply NoDup_map_to_list.
    - apply NoDup_fmap_2; [intros x y [= ->]; reflexivity | apply NoDup_elements].
    - intros [key v]. rewrite elem_of_map_to_list, _count_frequencies_lookup, list_elem_of_fmap.
      destruct (decide (key ∈ _build_combinations alphabet ∅ n)) as [Hin|Hnin].
      + split.
        * intros [= <-]. exists key. split; [reflexivity | apply elem_of_elements, Hin].
        * intros (key' & [= -> ->] & _). reflexivity.
      + split; [discriminate|].
        intros (key' & [= -> ->] & Hin%elem_of_elements). contradiction. }
  rewrite <- list_fmap_compose. reflexivity.
Qed.

(** X16: the counts of a frequency table add up to the number of windows
    of the sub-word length in the words, when the words are written in
    the alphabet: every window is counted once, under one key. *)
Theorem count_frequencies_total (words : list string) (alphabet : string) (n : Z) :
  Forall (over alphabet) words ->
  (Qsum (snd <$> map_to_list (_count_frequencies words alphabet n))
   == inject_Z (Z.of_nat (sum_list (windows (Z.to_nat (Z.max n 1)) <$> words))))%Q.
Proof.
  intros Hwords. rewrite (Qsum_perm _ _ (_count_frequencies_values words alphabet n)).
  destruct (_build_combinations_spec alphabet n) as [Hall _].
  set (keys := elements (_build_combinations alphabet ∅ n)) in *.
  rewrite (Qsum_ext _ ((fun m => inject_Z (Z.of_nat m))
                         <$> ((fun key => sum_list (occurrences key <$> words)) <$> keys))).
  2:{ rewrite <- list_fmap_compose. apply Forall2_fmap, Forall_Forall2_diag, Forall_forall.
      intros key _. simpl. rewrite count_all_sum. ring. }
  rewrite Qsum_inject, sum_list_swap.
  assert ((fun word => sum_list ((fun key => occurrences key word) <$> keys)) <$> words
          = windows (Z.to_nat (Z.max n 1)) <$> words) as ->; [|reflexivity].
  apply Forall_fmap_ext_1. eapply Forall_impl; [exact Hwords|].
  intros word Hw. simpl. apply (windows_once alphabet); [lia | exact Hall | exact Hw].
Qed.

Lemma count_frequencies_total_witness :
  (Qsum (snd <$> map_to_list (_count_frequencies ["abca"; "dd"; "c"] "abcd" 2))
   == inject_Z (Z.of_nat (sum_list (windows (Z.to_nat (Z.max 2 1)) <$> ["abca"; "dd"; "c"]))))%Q
  /\ sum_list (windows (Z.to_nat (Z.max 2 1)) <$> ["abca"; "dd"; "c"]) = 4%nat.
Proof.
  split; [|reflexivity].
  apply (count_frequencies_total ["abca"; "dd"; "c"] "abcd" 2).
  repeat constructor; unfold over; simpl; repeat constructor;
    repeat (apply elem_of_cons; first [left; reflexivity | right]).
Defined.

End AssumptionFreeAA.
